(** * Caller dashboard: ranking, filtering and call-detail reconciliation

    A shallow embedding of the client logic of the patient-monitoring
    dashboard: [PatientList] (sorting, source filter, reload of the caller
    list) and [PatientDetails] (call de-duplication, live insert merge,
    call selection, key-question extraction from a transcript).

    JavaScript strings are modelled by [string], whose characters stand for
    the code units below 256; arrays by [list]; [Set<string>] by
    [gset string]; [undefined] and [null] by [None]. *)

From Stdlib Require Import ZArith Ascii String.
From Stdlib Require Import DecimalString DecimalZ.
From stdpp Require Import base list gmap strings sorting.

Local Open Scope string_scope.
Local Open Scope list_scope.
Local Open Scope Z_scope.

(** ** JavaScript string primitives used by the components *)

Module JsString.

(** [s.startsWith(p)] *)
Definition startsWith (s p : string) : bool := String.prefix p s.

(** [s.includes(q)] *)
Fixpoint includes (s q : string) : bool :=
  String.prefix q s ||
  match s with
  | EmptyString => false
  | String _ s' => includes s' q
  end.

(** [skip n s] is [s] without its first [n] characters. *)
Fixpoint skip (n : nat) (s : string) : string :=
  match n, s with
  | S n', String _ s' => skip n' s'
  | _, _ => s
  end.

(** [s.replace(pat, rep)] with a string pattern: only the first occurrence
    of [pat] is replaced. *)
Fixpoint replace (s pat rep : string) : string :=
  if String.prefix pat s
  then rep +:+ skip (String.length pat) s
  else match s with
       | EmptyString => EmptyString
       | String c s' => String c (replace s' pat rep)
       end.

(** White space and line terminators among the code units below 256:
    TAB, LF, VT, FF, CR, SPACE, NBSP. *)
Definition is_white (c : ascii) : bool :=
  let n := nat_of_ascii c in
  ((9 <=? n)%nat && (n <=? 13)%nat) || (n =? 32)%nat || (n =? 160)%nat.

Fixpoint trimStart (s : string) : string :=
  match s with
  | EmptyString => EmptyString
  | String c s' => if is_white c then trimStart s' else s
  end.

Fixpoint trimEnd (s : string) : string :=
  match s with
  | EmptyString => EmptyString
  | String c s' =>
      match trimEnd s' with
      | EmptyString => if is_white c then EmptyString else String c EmptyString
      | r => String c r
      end
  end.

(** [s.trim()] *)
Definition trim (s : string) : string := trimEnd (trimStart s).

(** [s.split(sep)] for a one-character separator: [cur] holds the
    characters of the piece being read. *)
Fixpoint split_from (sep : ascii) (cur : string) (s : string) : list string :=
  match s with
  | EmptyString => [cur]
  | String c s' =>
      if Ascii.eqb c sep then cur :: split_from sep EmptyString s'
      else split_from sep (cur +:+ String c EmptyString) s'
  end.

Definition split (s : string) (sep : ascii) : list string :=
  split_from sep EmptyString s.

(** [arr.join(sep)] *)
Fixpoint join (sep : string) (arr : list string) : string :=
  match arr with
  | [] => EmptyString
  | [x] => x
  | x :: rest => x +:+ sep +:+ join sep rest
  end.

Definition LF : ascii := ascii_of_nat 10.
Definition NL : string := String LF EmptyString.

(** A string is solid when it is not empty and neither starts nor ends
    with white space: trimming cannot cut into an occurrence of it. *)
Definition first_solid (q : string) : bool :=
  match q with
  | String c _ => negb (is_white c)
  | EmptyString => false
  end.

Fixpoint last_solid (q : string) : bool :=
  match q with
  | EmptyString => false
  | String c EmptyString => negb (is_white c)
  | String _ q' => last_solid q'
  end.

End JsString.

Import JsString.

(** ** Rows of the backend relations *)

Inductive UrgencyLevel := LOW | MEDIUM | IMMINENT.

Global Instance UrgencyLevel_eq_dec : EqDecision UrgencyLevel.
Proof. solve_decision. Defined.

(** The row types are declared in [@/lib/supabase]; only the fields the two
    components read are kept.  [last_call_timestamp] is held as the instant
    in milliseconds that [new Date(...).getTime()] reads from it, while
    [call_timestamp] stays the string that [===] compares. *)
Module Caller.
Record t := {
  phone_number : string;
  name : option string;
  last_call_timestamp : Z
}.
End Caller.

Module Call.
Record t := {
  id : Z;
  phone_number : string;
  call_timestamp : string;
  urgency_level : option UrgencyLevel;
  source : option string;
  transcript : option string
}.
End Call.

(** A backend answer [{ data, error }]: a failed request carries an error
    and no data. *)
Module Response.
Record t (A : Type) := {
  data : option A;
  error : option string
}.
Arguments data {A} _.
Arguments error {A} _.
End Response.

(** [x || y] on values where [null]/[undefined] are the only falsy ones. *)
Definition or_else {A} (x : option A) (y : A) : A :=
  match x with Some v => v | None => y end.

(** Truthiness of a nullable string: [null] and the empty string are falsy. *)
Definition truthy_string (x : option string) : option string :=
  match x with
  | Some EmptyString | None => None
  | Some s => Some s
  end.

(** ** [Array.prototype.sort]

    The sort is stable; for a comparator that is consistent, as the two of
    [sortCallers] are, its result is the stable sorted arrangement, computed
    here by insertion from the right. *)
Section ArraySort.
Context {A : Type} (compareFn : A → A → Z).

(** [a] need not come after [b]. *)
Definition sort_before (a b : A) : Prop := compareFn a b ≤ 0.

Fixpoint sort_insert (x : A) (l : list A) : list A :=
  match l with
  | [] => [x]
  | y :: l' =>
      if decide (compareFn x y ≤ 0) then x :: l else y :: sort_insert x l'
  end.

Fixpoint array_sort (l : list A) : list A :=
  match l with
  | [] => []
  | x :: l' => sort_insert x (array_sort l')
  end.
End ArraySort.

(** ** The caller list: [PatientList.tsx] *)

Module PatientList.

Inductive SortField := urgency | lastCall.
Inductive SortOrder := asc | desc.
(** ['All' | 'Phone Call' | 'Chatbot'] *)
Inductive FilterSource := All | Phone_Call | Chatbot.

Global Instance SortField_eq_dec : EqDecision SortField.
Proof. solve_decision. Defined.
Global Instance SortOrder_eq_dec : EqDecision SortOrder.
Proof. solve_decision. Defined.

(** [Caller & { urgency_level?, last_source? }] *)
Record ScoredCaller := {
  caller : Caller.t;
  urgency_level : option UrgencyLevel;
  last_source : option string
}.

Definition phone_number (c : ScoredCaller) : string :=
  Caller.phone_number (caller c).
Definition last_call_timestamp (c : ScoredCaller) : Z :=
  Caller.last_call_timestamp (caller c).

(** [{ 'IMMINENT': 3, 'MEDIUM': 2, 'LOW': 1 }] *)
Definition urgencyOrder (level : UrgencyLevel) : Z :=
  match level with
  | IMMINENT => 3
  | MEDIUM => 2
  | LOW => 1
  end.

(** The comparator handed to [sort] by [sortCallers]. *)
Definition compareCallers (field : SortField) (order : SortOrder)
    (a b : ScoredCaller) : Z :=
  match field with
  | urgency =>
      let levelA := or_else (urgency_level a) LOW in
      let levelB := or_else (urgency_level b) LOW in
      match order with
      | asc => urgencyOrder levelA - urgencyOrder levelB
      | desc => urgencyOrder levelB - urgencyOrder levelA
      end
  | lastCall =>
      let dateA := last_call_timestamp a in
      let dateB := last_call_timestamp b in
      match order with
      | asc => dateA - dateB
      | desc => dateB - dateA
      end
  end.

Definition sortCallers (callers : list ScoredCaller) (field : SortField)
    (order : SortOrder) : list ScoredCaller :=
  array_sort (compareCallers field order) callers.

(** Component state. *)
Record State := {
  callers : list ScoredCaller;
  selectedId : option string;
  sortField : SortField;
  sortOrder : SortOrder;
  filterSource : FilterSource
}.

Definition toggle (order : SortOrder) : SortOrder :=
  match order with asc => desc | desc => asc end.

Definition handleSort (field : SortField) (st : State) : State :=
  if decide (sortField st = field) then
    {| callers := callers st; selectedId := selectedId st;
       sortField := sortField st; sortOrder := toggle (sortOrder st);
       filterSource := filterSource st |}
  else
    {| callers := callers st; selectedId := selectedId st;
       sortField := field; sortOrder := desc;
       filterSource := filterSource st |}.

(** The predicate of the [filter] applied to [callers] when rendering. *)
Definition sourceFilter (f : FilterSource) (c : ScoredCaller) : bool :=
  match f with
  | All => true
  | Phone_Call => bool_decide (last_source c = Some "Phone")
  | Chatbot => bool_decide (last_source c = Some "Chatbot")
  end.

Definition visibleCallers (st : State) : list ScoredCaller :=
  List.filter (sourceFilter (filterSource st)) (callers st).

(** The columns [urgency_level, source] selected from a call row. *)
Record ScoreRow := {
  row_urgency_level : option UrgencyLevel;
  row_source : option string
}.

(** What the backend answers during one run of [fetchCallersAndScores]:
    the caller list, and the most recent call of each phone number. *)
Record Backend := {
  fetchCallers : Response.t (list Caller.t);
  fetchLastCall : string → Response.t (list ScoreRow)
}.

(** Observable effects of a run besides the state update. *)
Inductive Effect :=
| ConsoleError (msg : string)
| OnSelect (c : ScoredCaller).

(** The body of the [map] callback: one caller joined with its most
    recent call. *)
Definition withScore (be : Backend) (c : Caller.t) : ScoredCaller :=
  let callsData := Response.data (fetchLastCall be (Caller.phone_number c)) in
  let first := callsData ≫= head in
  {| caller := c;
     urgency_level := first ≫= row_urgency_level;
     last_source := truthy_string (first ≫= row_source) |}.

Definition fetchCallersAndScores (be : Backend) (st : State)
    : State * list Effect :=
  match Response.error (fetchCallers be) with
  | Some callersError => (st, [ConsoleError callersError])
  | None =>
      let callersData := or_else (Response.data (fetchCallers be)) [] in
      let callersWithScoresData := map (withScore be) callersData in
      let sortedCallers :=
        sortCallers callersWithScoresData (sortField st) (sortOrder st) in
      let st' :=
        {| callers := sortedCallers; selectedId := selectedId st;
           sortField := sortField st; sortOrder := sortOrder st;
           filterSource := filterSource st |} in
      match truthy_string (selectedId st) with
      | Some sel =>
          match List.find (λ c, bool_decide (phone_number c = sel))
                          sortedCallers with
          | Some selectedCaller => (st', [OnSelect selectedCaller])
          | None => (st', [])
          end
      | None => (st', [])
      end
  end.

End PatientList.

(** ** The call history of one caller: [PatientDetails] *)

Module PatientDetails.

(** The callback of the [reduce] that removes calls with a timestamp
    already kept. *)
Definition dedupeStep (acc : list Call.t) (current : Call.t) : list Call.t :=
  match List.find
          (λ call, bool_decide (Call.call_timestamp call
                                = Call.call_timestamp current)) acc with
  | Some _exists => acc
  | None => acc ++ [current]
  end.

(** [callsData?.reduce(..., []) || []] *)
Definition uniqueCalls (callsData : option (list Call.t)) : list Call.t :=
  match callsData with
  | Some rows => foldl dedupeStep [] rows
  | None => []
  end.

(** Component state. *)
Record State := {
  calls : list Call.t;
  isLoading : bool;
  error : option string;
  selectedCall : option Call.t
}.

(** One run of [fetchCallerData] against the backend's answer. *)
Definition fetchCallerData (resp : Response.t (list Call.t)) (st : State)
    : State :=
  match Response.error resp with
  | Some message =>
      {| calls := calls st; isLoading := false; error := Some message;
         selectedCall := selectedCall st |}
  | None =>
      let unique := uniqueCalls (Response.data resp) in
      {| calls := unique; isLoading := false; error := None;
         selectedCall :=
           match unique with
           | first :: _ => Some first
           | [] => selectedCall st
           end |}
  end.

(** The updater handed to [setCalls] by the insert handler. *)
Definition insertCall (prevCalls : list Call.t) (newCall : Call.t)
    : list Call.t :=
  if existsb (λ call, bool_decide (Call.call_timestamp call
                                   = Call.call_timestamp newCall)) prevCalls
  then prevCalls
  else newCall :: prevCalls.

(** The updater handed to [setSelectedCall]: [current || newCall]. *)
Definition selectOnInsert (current : option Call.t) (newCall : Call.t)
    : option Call.t :=
  Some (or_else current newCall).

(** The handler of an [INSERT] notification on the caller's calls. *)
Definition onInsert (newCall : Call.t) (st : State) : State :=
  {| calls := insertCall (calls st) newCall;
     isLoading := isLoading st;
     error := error st;
     selectedCall := selectOnInsert (selectedCall st) newCall |}.

(** *** Key questions of a transcript *)

Definition keyQuestions : list string :=
  [ "How are you feeling?";
    "Have you had any thoughts of suicide in the last few days, including today?";
    "Have you done anything to harm yourself today?";
    "Do you need urgent help?" ].

(** The loop variables [filteredLines] and [foundQuestions]. *)
Record Scan := {
  filteredLines : list string;
  foundQuestions : gset string
}.

(** One iteration of the [for] loop, at index [i]. *)
Definition scanLine (lines : list string) (sc : Scan) (i : nat) : Scan :=
  match lines !! i with
  | None => sc
  | Some line =>
      if startsWith line "AI:" then
        let aiMessage := trim (replace line "AI:" "") in
        match List.find (λ q, includes aiMessage q) keyQuestions with
        | Some matchingQuestion =>
            if decide (matchingQuestion ∈ foundQuestions sc) then sc
            else
              let pushed := filteredLines sc ++ [line] in
              {| foundQuestions := {[matchingQuestion]} ∪ foundQuestions sc;
                 filteredLines :=
                   match lines !! (i + 1)%nat with
                   | Some next =>
                       if startsWith next "User:" then pushed ++ [next]
                       else pushed
                   | None => pushed
                   end |}
        | None => sc
        end
      else sc
  end.

Definition filterKeyQuestions (transcript : string) : string :=
  let lines := split transcript LF in
  let final :=
    foldl (scanLine lines)
          {| filteredLines := []; foundQuestions := ∅ |}
          (seq 0 (length lines)) in
  join NL (filteredLines final).

End PatientDetails.

(** ** Key-question extraction, stated without the loop *)

Module KeyQuestionSpec.
Import PatientDetails.

(** The AI-tagged line [line] contains the question [q] in its message. *)
Definition asks (line q : string) : bool :=
  startsWith line "AI:" && includes (skip 3 line) q.

(** The user-tagged line that immediately follows index [i], if any. *)
Definition reply (lines : list string) (i : nat) : list string :=
  match lines !! (i + 1)%nat with
  | Some next => if startsWith next "User:" then [next] else []
  | None => []
  end.

(** Line [i] is the first line of the transcript that asks [q]. *)
Definition firstOccurrence (lines : list string) (i : nat) (q : string)
    : bool :=
  match lines !! i with
  | Some line => asks line q && forallb (λ l, negb (asks l q)) (take i lines)
  | None => false
  end.

(** Reading of the specification: a line is captured when it is the first
    occurrence of some canonical question. *)
Definition capturedByOccurrence (lines : list string) (i : nat) : bool :=
  existsb (firstOccurrence lines i) keyQuestions.

(** The canonical question a line counts for: the first one, in the order
    of [keyQuestions], that it asks. *)
Definition attributed (line : string) : option string :=
  List.find (asks line) keyQuestions.

(** A line is captured when no earlier line counts for the same
    canonical question. *)
Definition capturedByAttribution (lines : list string) (i : nat) : bool :=
  match lines !! i ≫= attributed with
  | Some q =>
      forallb (λ l, negb (bool_decide (attributed l = Some q)))
              (take i lines)
  | None => false
  end.

(** The captured lines in transcript order, each with its reply. *)
Definition pairs (captured : list string → nat → bool)
    (lines : list string) : list string :=
  flat_map (λ i, if captured lines i
                 then option_list (lines !! i) ++ reply lines i
                 else [])
           (seq 0 (length lines)).

Definition extract (captured : list string → nat → bool)
    (transcript : string) : string :=
  join NL (pairs captured (split transcript LF)).

(** The state of the loop after the first [k] lines, as a value. *)
Definition scanned (lines : list string) (k : nat) : Scan :=
  foldl (scanLine lines)
        {| filteredLines := []; foundQuestions := ∅ |} (seq 0 k).

(** What a captured line contributes to the result. *)
Definition emitted (lines : list string) (i : nat) : list string :=
  if capturedByAttribution lines i
  then option_list (lines !! i) ++ reply lines i else [].

(** No line of the transcript asks two different canonical questions. *)
Definition oneQuestionPerLine (transcript : string) : Prop :=
  ∀ line q1 q2,
    line ∈ split transcript LF →
    q1 ∈ keyQuestions → q2 ∈ keyQuestions →
    asks line q1 = true → asks line q2 = true → q1 = q2.

(** Transcripts used as examples. *)
Definition feelingTwice : string :=
  "AI: How are you feeling?" +:+ NL +:+
  "User: Okay I guess" +:+ NL +:+
  "AI: unrelated" +:+ NL +:+
  "AI: How are you feeling?" +:+ NL +:+
  "User: still okay".

Definition askedAgain : string :=
  "AI: How are you feeling? Do you need urgent help?" +:+ NL +:+
  "AI: Do you need urgent help?" +:+ NL +:+
  "User: Yes".

Definition twoInOneLine : string :=
  "AI: How are you feeling?" +:+ NL +:+
  "AI: How are you feeling? Do you need urgent help?" +:+ NL +:+
  "User: No".

End KeyQuestionSpec.

(** ** The order of the caller list, stated without the comparator *)

Module RankingSpec.
Import PatientList.

(** The number a caller is ranked by under each sort key. *)
Definition sortKey (field : SortField) (c : ScoredCaller) : Z :=
  match field with
  | urgency =>
      match urgency_level c with
      | Some LOW => 1
      | Some MEDIUM => 2
      | Some IMMINENT => 3
      | None => 1
      end
  | lastCall => last_call_timestamp c
  end.

(** [a] may stand before [b] in the chosen direction. *)
Definition inOrder (field : SortField) (order : SortOrder)
    (a b : ScoredCaller) : Prop :=
  match order with
  | asc => sortKey field a ≤ sortKey field b
  | desc => sortKey field b ≤ sortKey field a
  end.

(** The two callers of the sorting example; [day1] is 2024-01-01 and
    [day2] 2024-01-02, both at midnight UTC. *)
Definition day1 : Z := 1704067200000.
Definition day2 : Z := 1704153600000.

Definition caller1 : ScoredCaller :=
  {| caller := {| Caller.phone_number := "1"; Caller.name := None;
                  Caller.last_call_timestamp := day2 |};
     urgency_level := Some MEDIUM; last_source := Some "Phone" |}.

Definition caller2 : ScoredCaller :=
  {| caller := {| Caller.phone_number := "2"; Caller.name := None;
                  Caller.last_call_timestamp := day1 |};
     urgency_level := Some IMMINENT; last_source := Some "Chatbot" |}.

(** A state holding the two callers, urgency descending. *)
Definition exampleState (f : FilterSource) : State :=
  {| callers := [caller2; caller1]; selectedId := None;
     sortField := urgency; sortOrder := desc; filterSource := f |}.

(** A backend whose lookup fails for phone "1" and answers for the rest. *)
Definition flakyBackend : Backend :=
  {| fetchCallers :=
       {| Response.data := Some [caller caller1; caller caller2];
          Response.error := None |};
     fetchLastCall := λ phone,
       if bool_decide (phone = "1")
       then {| Response.data := None; Response.error := Some "timeout" |}
       else {| Response.data :=
                 Some [ {| row_urgency_level := Some IMMINENT;
                           row_source := Some "Chatbot" |} ];
               Response.error := None |} |}.

(** A backend that cannot be reached. *)
Definition downBackend : Backend :=
  {| fetchCallers :=
       {| Response.data := None; Response.error := Some "unreachable" |};
     fetchLastCall := λ _,
       {| Response.data := None; Response.error := Some "unreachable" |} |}.

End RankingSpec.

(** ** Call histories, stated without the loop *)

Module HistorySpec.

(** [call] carries the timestamp of [c]. *)
Definition sameTimestamp (c call : Call.t) : bool :=
  bool_decide (Call.call_timestamp call = Call.call_timestamp c).

(** A history is most-recent-first under a reading [instant] of the
    timestamps as instants. *)
Definition mostRecentFirst (instant : string → Z) (l : list Call.t) : Prop :=
  Sorted (λ a b, instant (Call.call_timestamp b)
                 ≤ instant (Call.call_timestamp a)) l.

(** The calls of the de-duplication example: two rows stamped [T2], then
    one stamped [T1]. *)
Definition T1 : string := "2024-05-01T10:00:00+00:00".
Definition T2 : string := "2024-05-02T10:00:00+00:00".

Definition mkCall (id : Z) (ts : string) : Call.t :=
  {| Call.id := id; Call.phone_number := "1"; Call.call_timestamp := ts;
     Call.urgency_level := Some LOW; Call.source := Some "Phone";
     Call.transcript := None |}.

(** The instant of the example timestamps: the day of the month. *)
Definition dayOf (ts : string) : Z :=
  if bool_decide (ts = T2) then 2 else 1.

End HistorySpec.

(** ** Key-question extraction as a recursion on the lines *)

Module KeyQuestionScan.
Import PatientDetails KeyQuestionSpec.

(** The user-tagged line at the head of [rest], if there is one. *)
Definition replyOf (rest : list string) : list string :=
  match rest with
  | next :: _ => if startsWith next "User:" then [next] else []
  | [] => []
  end.

(** The lines pushed from the lines still to visit, [found] being the
    questions found before them. *)
Fixpoint scanFrom (found : gset string) (lines : list string) : list string :=
  match lines with
  | [] => []
  | line :: rest =>
      match attributed line with
      | Some q =>
          if decide (q ∈ found) then scanFrom found rest
          else line :: replyOf rest ++ scanFrom ({[q]} ∪ found) rest
      | None => scanFrom found rest
      end
  end.

(** The canonical questions not yet in [found]. *)
Definition pending (found : gset string) : list string :=
  List.filter (λ q, bool_decide (q ∉ found)) keyQuestions.

(** The line carries the tag of the AI. *)
Definition isAiLine (line : string) : bool := startsWith line "AI:".

(** The line carries one of the two tags. *)
Definition tagged (line : string) : Prop :=
  startsWith line "AI:" = true ∨ startsWith line "User:" = true.

End KeyQuestionScan.

(** ** Orders that a stable sort refines *)

Section ArraySortRefined.
Context {A : Type} (compareFn : A → A → Z).

(** [a] need not come after [b], and was [earlier] when neither need come
    after the other. *)
Definition refined (earlier : relation A) (a b : A) : Prop :=
  compareFn a b ≤ 0 ∧ (compareFn b a ≤ 0 → earlier a b).

End ArraySortRefined.

(** ** The caller list: row clicks and the channels of the filter *)

Module PatientListView.
Import PatientList.

(** The click handler of a caller row. *)
Definition selectCaller (c : ScoredCaller) (st : State) : State * list Effect :=
  ({| callers := callers st; selectedId := Some (phone_number c);
      sortField := sortField st; sortOrder := sortOrder st;
      filterSource := filterSource st |},
   [OnSelect c]).

(** The click handler of a filter tab. *)
Definition setFilterSource (f : FilterSource) (st : State) : State :=
  {| callers := callers st; selectedId := selectedId st;
     sortField := sortField st; sortOrder := sortOrder st;
     filterSource := f |}.

(** The callers that neither channel filter shows. *)
Definition otherSource (c : ScoredCaller) : bool :=
  negb (sourceFilter Phone_Call c) && negb (sourceFilter Chatbot c).

(** [a] stands before [b] by urgency in direction [order] and, at equal
    urgency, is the one called last. *)
Definition urgencyThenRecency (order : SortOrder) (a b : ScoredCaller) : Prop :=
  RankingSpec.inOrder urgency order a b
  ∧ (RankingSpec.sortKey urgency a = RankingSpec.sortKey urgency b →
     last_call_timestamp b ≤ last_call_timestamp a).

(** The backend's order of the caller rows: last call first. *)
Definition lastCallFirst (a b : Caller.t) : Prop :=
  Caller.last_call_timestamp b ≤ Caller.last_call_timestamp a.

(** A state in which the caller with phone "2" is selected. *)
Definition selectedState : State :=
  {| callers := []; selectedId := Some "2"; sortField := urgency;
     sortOrder := desc; filterSource := All |}.

End PatientListView.

(** ** The call history: events, screens and rendering *)

Module PatientDetailsView.
Import PatientDetails.

(** The click handler of a call entry: [setSelectedCall(call)]. *)
Definition selectCall (call : Call.t) (st : State) : State :=
  {| calls := calls st; isLoading := isLoading st; error := error st;
     selectedCall := Some call |}.

(** The synchronous start of [fetchCallerData]. *)
Definition beginFetch (st : State) : State :=
  {| calls := calls st; isLoading := true; error := None;
     selectedCall := selectedCall st |}.

(** What can happen to the component. *)
Inductive Event :=
| LoadStarted
| LoadFinished (resp : Response.t (list Call.t))
| CallInserted (newCall : Call.t)
| CallClicked (call : Call.t).

Definition step (st : State) (e : Event) : State :=
  match e with
  | LoadStarted => beginFetch st
  | LoadFinished resp => fetchCallerData resp st
  | CallInserted newCall => onInsert newCall st
  | CallClicked call => selectCall call st
  end.

(** The initial values of the four [useState] cells. *)
Definition initial : State :=
  {| calls := []; isLoading := true; error := None; selectedCall := None |}.

Definition run (events : list Event) : State := foldl step initial events.

(** Which of the three return statements renders. *)
Inductive Screen :=
| LoadingScreen
| ErrorScreen (message : string)
| MainScreen.

Definition screen (st : State) : Screen :=
  if isLoading st then LoadingScreen
  else match truthy_string (error st) with
       | Some message => ErrorScreen message
       | None => MainScreen
       end.

(** [Number.MAX_SAFE_INTEGER]: two to the power 53, minus one. *)
Definition MAX_SAFE_INTEGER : Z := 9007199254740991.

(** [Number.isSafeInteger] on a whole number. *)
Definition isSafeInteger (n : Z) : bool :=
  (- MAX_SAFE_INTEGER <=? n) && (n <=? MAX_SAFE_INTEGER).

(** The decimal digits of a whole number, after a minus sign when it is
    negative: what [toString] and a template literal print for a safe
    integer. *)
Definition decimal (n : Z) : string := NilZero.string_of_int (Z.to_int n).

(** [count] characters of filler, cycling through [padString]; [rest] is
    what is left of the copy being read. *)
Fixpoint filler (count : nat) (padString rest : string) : string :=
  match count with
  | O => EmptyString
  | S count' =>
      match rest with
      | String c rest' => String c (filler count' padString rest')
      | EmptyString =>
          match padString with
          | String c rest' => String c (filler count' padString rest')
          | EmptyString => EmptyString
          end
      end
  end.

(** [s.padStart(targetLength, padString)] *)
Definition padStart (s : string) (targetLength : nat) (padString : string)
    : string :=
  filler (targetLength - String.length s) padString padString +:+ s.

(** [formatDuration] on a whole number of seconds.  On a safe integer the
    quotient by 60, computed in doubles and floored, is the whole quotient,
    the remainder is exact, and both are printed in plain decimal.  Beyond
    the safe integers the doubles round and large values print with an
    exponent; those arguments are left out of the model ([None]). *)
Definition formatDuration (seconds : Z) : option string :=
  if isSafeInteger seconds then
    let minutes := seconds / 60 in
    let remainingSeconds := Z.rem seconds 60 in
    Some (decimal minutes +:+ ":"
          +:+ padStart (decimal remainingSeconds) 2 "0")
  else None.

(** The whole number that a decimal text denotes. *)
Definition readDecimal (text : string) : option Z :=
  Z.of_int <$> NilZero.int_of_string text.

(** The seconds field of a duration: [remainder] below sixty, on two
    digits. *)
Definition secondsField (remainder : nat) : string :=
  padStart (decimal (Z.of_nat remainder)) 2 "0".

(** The label of the source badge of the selected call. *)
Definition sourceBadge (call : Call.t) : string :=
  if bool_decide (Call.source call = Some "Chatbot")
  then "Chatbot" else "Phone Call".

(** A bubble of the "Key Questions & Responses" card. *)
Inductive Bubble :=
| AiBubble (text : string)
| UserBubble (text : string).

(** The callback of the [map] over the extracted lines; [None] is the
    [null] it returns for a line without a tag. *)
Definition renderLine (line : string) : option Bubble :=
  if startsWith line "AI:" then Some (AiBubble (trim (replace line "AI:" "")))
  else if startsWith line "User:"
       then Some (UserBubble (trim (replace line "User:" "")))
       else None.

(** The content of the card: [None] stands for "No transcript available". *)
Definition renderTranscript (call : option Call.t)
    : option (list (option Bubble)) :=
  match truthy_string (call ≫= Call.transcript) with
  | Some transcript =>
      Some (map renderLine (split (filterKeyQuestions transcript) LF))
  | None => None
  end.

(** The entry that the card shows for a tagged line: a bubble of the
    speaker, holding the line without its tag and trimmed. *)
Definition shows (line : string) (entry : option Bubble) : Prop :=
  (startsWith line "AI:" = true
   ∧ entry = Some (AiBubble (trim (skip 3 line))))
  ∨ (startsWith line "User:" = true
     ∧ entry = Some (UserBubble (trim (skip 5 line)))).

(** A call whose transcript asks "How are you feeling?" twice. *)
Definition feelingCall : Call.t :=
  {| Call.id := 7; Call.phone_number := "1";
     Call.call_timestamp := HistorySpec.T1;
     Call.urgency_level := Some LOW; Call.source := Some "Phone";
     Call.transcript := Some KeyQuestionSpec.feelingTwice |}.

(** The string holds no line feed. *)
Fixpoint lineFree (s : string) : bool :=
  match s with
  | EmptyString => true
  | String c s' => negb (Ascii.eqb c LF) && lineFree s'
  end.

End PatientDetailsView.

(** ** The sidebar: [app-sidebar.tsx] *)

Module AppSidebar.

(** [urgency] is a whole score. *)
Record Mail := {
  phoneNumber : string;
  name : string;
  urgency : Z;
  lastCall : string
}.

Definition initialMails : list Mail :=
  [ {| phoneNumber := "1"; name := "John Doe"; urgency := 7;
       lastCall := "2024-03-20" |};
    {| phoneNumber := "2"; name := "Jane Smith"; urgency := 4;
       lastCall := "2024-03-19" |} ].

Definition getUrgencyColor (score : Z) : string :=
  if decide (8 ≤ score) then "bg-red-500"
  else if decide (5 ≤ score) then "bg-orange-500"
  else if decide (3 ≤ score) then "bg-yellow-500"
  else "bg-green-500".

(** The new value of [mails] after [sortByUrgency]. *)
Definition sortByUrgency (mails : list Mail) : list Mail :=
  array_sort (λ a b, urgency b - urgency a) mails.

(** Mails of equal urgency in [initialMails]' shape, for the examples. *)
Definition tiedMails : list Mail :=
  [ {| phoneNumber := "1"; name := "John Doe"; urgency := 4;
       lastCall := "2024-03-20" |};
    {| phoneNumber := "3"; name := "Ann Lee"; urgency := 9;
       lastCall := "2024-03-18" |};
    {| phoneNumber := "2"; name := "Jane Smith"; urgency := 4;
       lastCall := "2024-03-19" |} ].

(** How alarming a badge colour is. *)
Definition alarm (color : string) : Z :=
  if bool_decide (color = "bg-red-500") then 3
  else if bool_decide (color = "bg-orange-500") then 2
  else if bool_decide (color = "bg-yellow-500") then 1
  else 0.

End AppSidebar.

(** * Properties *)

(** ** Facts about the string primitives *)

Section JsStringFacts.

Lemma append_cons (c : ascii) (s t : string) :
  String c s +:+ t = String c (s +:+ t).
Proof. reflexivity. Qed.

Lemma append_empty (t : string) : EmptyString +:+ t = t.
Proof. reflexivity. Qed.

Lemma prefix_iff (q s : string) :
  String.prefix q s = true ↔ ∃ post, s = q +:+ post.
Proof.
  revert s; induction q as [|a q IH]; intros s; simpl.
  - destruct s; split; eauto.
  - setoid_rewrite append_cons. destruct s as [|b s]; simpl.
    + split; [discriminate | intros [post H]; discriminate].
    + destruct (ascii_dec a b) as [->|Hne].
      * rewrite IH. split; intros [post H]; exists post; congruence.
      * split; [discriminate | intros [post H]; congruence].
Qed.

(** [includes] is substring containment. *)
Lemma includes_iff (s q : string) :
  includes s q = true ↔ ∃ pre post, s = pre +:+ q +:+ post.
Proof.
  induction s as [|c s IH]; cbn [includes].
  - rewrite orb_false_r, prefix_iff. split.
    + intros [post H]. exists EmptyString, post. exact H.
    + intros ([|? pre] & post & H); [eauto | discriminate].
  - rewrite orb_true_iff, prefix_iff, IH. split.
    + intros [[post H] | (pre & post & H)].
      * exists EmptyString, post. exact H.
      * exists (String c pre), post. rewrite append_cons. congruence.
    + intros ([|c' pre] & post & H).
      * left. eauto.
      * right. exists pre, post. rewrite append_cons in H. congruence.
Qed.

Lemma replace_startsWith (line pat rep : string) :
  startsWith line pat = true →
  replace line pat rep = rep +:+ skip (String.length pat) line.
Proof.
  unfold startsWith. intros H.
  destruct line; cbn [replace]; rewrite H; reflexivity.
Qed.

Lemma prefix_white (q : string) (a : ascii) (s : string) :
  first_solid q = true → is_white a = true →
  String.prefix q (String a s) = false.
Proof.
  destruct q as [|c q]; simpl; [discriminate|]. intros Hc Ha.
  destruct (ascii_dec c a) as [->|]; [|reflexivity].
  rewrite Ha in Hc. discriminate.
Qed.

Lemma includes_trimStart (s q : string) :
  first_solid q = true → includes (trimStart s) q = includes s q.
Proof.
  intros Hq. induction s as [|a s IH]; [reflexivity|].
  cbn [trimStart]. destruct (is_white a) eqn:Ha; [|reflexivity].
  rewrite IH. cbn [includes]. rewrite prefix_white by assumption.
  reflexivity.
Qed.

Lemma prefix_empty (q : string) :
  last_solid q = true → String.prefix q EmptyString = false.
Proof. destruct q; [discriminate | reflexivity]. Qed.

Lemma prefix_trimEnd (s q : string) :
  last_solid q = true → String.prefix q (trimEnd s) = String.prefix q s.
Proof.
  revert q; induction s as [|a s IH]; intros q Hq; [reflexivity|].
  destruct q as [|c q]; [discriminate|].
  assert (Htail : q ≠ EmptyString →
                  String.prefix q (trimEnd s) = String.prefix q s).
  { intros Hne. apply IH. destruct q; [congruence | exact Hq]. }
  cbn [trimEnd]. destruct (trimEnd s) as [|b r] eqn:Hr.
  - destruct q as [|c' q].
    + simpl in Hq. destruct (is_white a) eqn:Ha; simpl;
        destruct (ascii_dec c a) as [->|]; try reflexivity.
      * rewrite Ha in Hq. discriminate.
      * destruct s; reflexivity.
    + specialize (Htail ltac:(discriminate)). simpl in Htail.
      destruct (is_white a); simpl; destruct (ascii_dec c a);
        try reflexivity; rewrite <- Htail; reflexivity.
  - simpl. destruct (ascii_dec c a); [|reflexivity].
    destruct q as [|c' q]; [destruct s; reflexivity|].
    apply Htail. discriminate.
Qed.

Lemma includes_trimEnd (s q : string) :
  last_solid q = true → includes (trimEnd s) q = includes s q.
Proof.
  intros Hq. induction s as [|a s IH]; [reflexivity|].
  cbn [includes]. rewrite <- IH, <- (prefix_trimEnd (String a s)) by exact Hq.
  cbn [trimEnd]. destruct (trimEnd s) as [|b r]; [|reflexivity].
  destruct (is_white a); cbn [includes]; [|reflexivity].
  rewrite orb_false_r, orb_diag. reflexivity.
Qed.

(** Trimming does not change whether a solid string occurs. *)
Lemma includes_trim (s q : string) :
  first_solid q = true → last_solid q = true →
  includes (trim s) q = includes s q.
Proof.
  intros H1 H2. unfold trim.
  rewrite includes_trimEnd, includes_trimStart by assumption. reflexivity.
Qed.

End JsStringFacts.

(** ** Facts about lists *)

Section ListFacts.
Context {A : Type}.

Lemma forallb_agree (f g : A → bool) (l : list A) :
  (∀ x, In x l → f x = g x) → forallb f l = forallb g l.
Proof.
  induction l as [|x l IH]; intros H; [reflexivity|]. cbn [forallb].
  rewrite (H x), IH; [reflexivity | | left; reflexivity].
  intros y Hy. apply H. right. exact Hy.
Qed.

Lemma find_app (p : A → bool) (l1 l2 : list A) :
  List.find p (l1 ++ l2)
  = match List.find p l1 with
    | Some x => Some x
    | None => List.find p l2
    end.
Proof.
  induction l1 as [|x l1 IH]; [reflexivity|]. cbn [app List.find].
  destruct (p x); [reflexivity | exact IH].
Qed.

Lemma filter_sublist (p : A → bool) (l : list A) :
  List.filter p l `sublist_of` l.
Proof.
  induction l as [|x l IH]; cbn [List.filter]; [constructor|].
  destruct (p x); [apply sublist_skip | apply sublist_cons]; exact IH.
Qed.

Lemma filter_StronglySorted (R : relation A) (p : A → bool) (l : list A) :
  StronglySorted R l → StronglySorted R (List.filter p l).
Proof.
  induction 1 as [|x l Hl IH Hx]; cbn [List.filter]; [constructor|].
  destruct (p x); [|exact IH]. constructor; [exact IH|].
  eapply Forall_forall. intros y Hy.
  apply list_elem_of_In, filter_In in Hy as [Hy _].
  rewrite Forall_forall in Hx. apply Hx, list_elem_of_In, Hy.
Qed.

Lemma StronglySorted_weaken (R R' : relation A) (l : list A) :
  (∀ a b, R a b → R' a b) → StronglySorted R l → StronglySorted R' l.
Proof.
  intros HR. induction 1 as [|x l Hl IH Hx]; constructor; [exact IH|].
  eapply Forall_impl; [exact Hx | apply HR].
Qed.

Lemma StronglySorted_reverse (R : relation A) (l : list A) :
  StronglySorted R l → StronglySorted (flip R) (reverse l).
Proof.
  induction 1 as [|x l Hl IH Hx]; [constructor|].
  rewrite reverse_cons. apply StronglySorted_app. split; [|split].
  - intros y z Hy Hz. apply list_elem_of_singleton in Hz as ->.
    rewrite elem_of_reverse in Hy. unfold flip.
    rewrite Forall_forall in Hx. apply Hx, Hy.
  - exact IH.
  - repeat constructor.
Qed.

(** A function whose values on a list are pairwise distinct is injective
    on that list. *)
Lemma NoDup_fmap_eq {B : Type} (f : A → B) (l : list A) (x y : A) :
  NoDup (f <$> l) → x ∈ l → y ∈ l → f x = f y → x = y.
Proof.
  induction l as [|z l IH]; intros Hnd Hx Hy Hf.
  - apply not_elem_of_nil in Hx as [].
  - rewrite fmap_cons in Hnd. apply NoDup_cons in Hnd as [Hz Hnd].
    apply elem_of_cons in Hx as [->|Hx], Hy as [->|Hy].
    + reflexivity.
    + exfalso. apply Hz. rewrite Hf. apply list_elem_of_fmap_2, Hy.
    + exfalso. apply Hz. rewrite <- Hf. apply list_elem_of_fmap_2, Hx.
    + apply IH; assumption.
Qed.

End ListFacts.

(** ** Key-question extraction *)

Section KeyQuestions.
Import PatientDetails KeyQuestionSpec.

(** [asks] is containment of the question in the message of an AI line. *)
Lemma asks_iff (line q : string) :
  asks line q = true ↔ ∃ pre post, line = "AI:" +:+ pre +:+ q +:+ post.
Proof.
  unfold asks, startsWith. rewrite andb_true_iff, prefix_iff. split.
  - intros [[msg ->] Hin]. change (skip 3 ("AI:" +:+ msg)) with msg in Hin.
    apply includes_iff in Hin as (pre & post & ->). eauto.
  - intros (pre & post & ->). split; [eauto|].
    change (skip 3 ("AI:" +:+ pre +:+ q +:+ post)) with (pre +:+ q +:+ post).
    apply includes_iff. exists pre, post. reflexivity.
Qed.

(** The question found by the loop body is the attributed one: removing
    the tag with [replace] and trimming the rest do not matter. *)
Lemma matching_attributed (line : string) :
  startsWith line "AI:" = true →
  List.find (λ q, includes (trim (replace line "AI:" "")) q) keyQuestions
  = attributed line.
Proof.
  intros H. rewrite (replace_startsWith _ _ _ H), append_empty.
  change (String.length "AI:") with 3%nat.
  unfold attributed, asks. rewrite H. unfold keyQuestions. cbn [List.find].
  rewrite !includes_trim by reflexivity. reflexivity.
Qed.

Lemma untagged_attributed (line : string) :
  startsWith line "AI:" = false → attributed line = None.
Proof. intros H. unfold attributed, asks. rewrite H. reflexivity. Qed.

Lemma attributed_asks (line q : string) :
  attributed line = Some q → q ∈ keyQuestions ∧ asks line q = true.
Proof.
  intros H. apply find_some in H as [Hin Hq].
  split; [apply list_elem_of_In, Hin | exact Hq].
Qed.

Lemma scanned_S (lines : list string) (k : nat) :
  scanned lines (S k) = scanLine lines (scanned lines k) k.
Proof. unfold scanned. rewrite seq_S, foldl_app. reflexivity. Qed.

Lemma seen_before (lines : list string) (k : nat) (q : string) :
  forallb (λ l, negb (bool_decide (attributed l = Some q))) (take k lines)
  = true
  ↔ ¬ ∃ l, l ∈ take k lines ∧ attributed l = Some q.
Proof.
  rewrite forallb_forall. split.
  - intros H (l & Hl & Hq). apply list_elem_of_In, H in Hl.
    rewrite bool_decide_eq_true_2 in Hl by exact Hq. discriminate.
  - intros H l Hl. apply negb_true_iff, bool_decide_eq_false.
    intros Hq. apply H. exists l. split; [apply list_elem_of_In, Hl | exact Hq].
Qed.

(** Loop invariant: the lines pushed so far are those of the captured
    indices below [k], and the found set holds the questions attributed
    to a line below [k]. *)
Lemma scan_invariant (lines : list string) (k : nat) :
  (k ≤ length lines)%nat →
  filteredLines (scanned lines k) = flat_map (emitted lines) (seq 0 k)
  ∧ ∀ q, q ∈ foundQuestions (scanned lines k)
         ↔ ∃ l, l ∈ take k lines ∧ attributed l = Some q.
Proof.
  induction k as [|k IH]; intros Hk.
  - split; [reflexivity|]. intros q. rewrite take_0. split.
    + intros H. apply not_elem_of_empty in H as [].
    + intros (l & Hl & _). apply not_elem_of_nil in Hl as [].
  - destruct IH as [IHout IHfound]; [lia|].
    destruct (lookup_lt_is_Some_2 lines k ltac:(lia)) as [line Hline].
    rewrite scanned_S, seq_S, flat_map_app, (take_S_r _ _ _ Hline).
    cbn [flat_map plus]. rewrite app_nil_r.
    assert (Hmore : ∀ q, (∃ l, l ∈ take k lines ++ [line]
                               ∧ attributed l = Some q)
              ↔ (∃ l, l ∈ take k lines ∧ attributed l = Some q)
                ∨ attributed line = Some q).
    { intros q. split.
      - intros (l & Hl & Hq). apply elem_of_app in Hl as [Hl|Hl].
        + left. eauto.
        + apply list_elem_of_singleton in Hl as ->. right. exact Hq.
      - intros [(l & Hl & Hq) | Hq].
        + exists l. split; [apply elem_of_app; left; exact Hl | exact Hq].
        + exists line. split; [|exact Hq].
          apply elem_of_app. right. apply list_elem_of_singleton. reflexivity. }
    unfold scanLine, emitted, capturedByAttribution.
    rewrite Hline. cbn [mbind option_bind].
    destruct (startsWith line "AI:") eqn:Htag.
    + rewrite (matching_attributed _ Htag).
      destruct (attributed line) as [q|] eqn:Hq.
      * destruct (decide (q ∈ foundQuestions (scanned lines k))) as [Hin|Hout].
        -- assert (Hseen : forallb
                     (λ l, negb (bool_decide (attributed l = Some q)))
                     (take k lines) = false).
           { apply not_true_iff_false. rewrite seen_before.
             intros Hno. apply Hno, IHfound, Hin. }
           rewrite Hseen, app_nil_r. split; [exact IHout|].
           intros q'. rewrite Hmore, IHfound. split; [tauto|].
           intros [H|H]; [exact H|]. injection H as <-.
           apply IHfound, Hin.
        -- assert (Hseen : forallb
                     (λ l, negb (bool_decide (attributed l = Some q)))
                     (take k lines) = true).
           { apply seen_before. intros Hyes. apply Hout, IHfound, Hyes. }
           rewrite Hseen. split.
           ++ unfold reply. cbn [option_list].
              destruct (lines !! (k + 1)%nat) as [next|];
                [destruct (startsWith next "User:")|];
                cbn [filteredLines]; rewrite IHout, <- ?app_assoc;
                reflexivity.
           ++ intros q'. cbn [foundQuestions].
              rewrite Hmore, elem_of_union, elem_of_singleton, IHfound.
              split; intros [H|H];
                [right; congruence | left; exact H
                | right; exact H | left; congruence].
      * rewrite app_nil_r. split; [exact IHout|].
        intros q'. rewrite Hmore, IHfound. split; [tauto|].
        intros [H|H]; [exact H | discriminate].
    + pose proof (untagged_attributed _ Htag) as Hq.
      rewrite Hq, app_nil_r. split; [exact IHout|].
      intros q'. rewrite Hmore, IHfound. split; [tauto|].
      intros [H|H]; [exact H | congruence].
Qed.

(** The loop computes the pairs of the lines captured by attribution. *)
Lemma filterKeyQuestions_extract (transcript : string) :
  filterKeyQuestions transcript = extract capturedByAttribution transcript.
Proof.
  unfold filterKeyQuestions, extract, pairs.
  destruct (scan_invariant (split transcript LF)
              (length (split transcript LF)) ltac:(lia)) as [Hout _].
  unfold scanned in Hout. rewrite Hout. reflexivity.
Qed.

(** When a line asks at most one canonical question, asking a question
    and counting for it are the same. *)
Lemma asks_attributed (line q : string) :
  (∀ q1 q2, q1 ∈ keyQuestions → q2 ∈ keyQuestions →
            asks line q1 = true → asks line q2 = true → q1 = q2) →
  q ∈ keyQuestions →
  asks line q = bool_decide (attributed line = Some q).
Proof.
  intros Hone Hq. destruct (asks line q) eqn:Hasks; symmetry.
  - apply bool_decide_eq_true. destruct (attributed line) as [q'|] eqn:Hq'.
    + apply attributed_asks in Hq' as [Hin Hasks']. f_equal. eauto.
    + apply find_none with (x := q) in Hq'; [congruence|].
      apply list_elem_of_In, Hq.
  - apply bool_decide_eq_false. intros Hq'.
    apply attributed_asks in Hq' as [_ Hasks']. congruence.
Qed.

Lemma captured_agree (lines : list string) (i : nat) :
  (∀ line q1 q2, line ∈ lines → q1 ∈ keyQuestions → q2 ∈ keyQuestions →
                 asks line q1 = true → asks line q2 = true → q1 = q2) →
  capturedByAttribution lines i = capturedByOccurrence lines i.
Proof.
  intros Hone. unfold capturedByAttribution, capturedByOccurrence.
  assert (Hfirst : ∀ line q, lines !! i = Some line → q ∈ keyQuestions →
            firstOccurrence lines i q
            = bool_decide (attributed line = Some q)
              && forallb (λ l, negb (bool_decide (attributed l = Some q)))
                         (take i lines)).
  { intros line q Hline Hq. unfold firstOccurrence. rewrite Hline.
    rewrite (asks_attributed line q); [|eauto using list_elem_of_lookup_2 | exact Hq].
    f_equal. apply forallb_agree. intros l Hl. f_equal.
    apply asks_attributed; [|exact Hq].
    intros q1 q2. apply Hone. apply list_elem_of_In in Hl.
    apply (subseteq_take i lines), Hl. }
  apply eq_true_iff_eq. rewrite existsb_exists.
  destruct (lines !! i) as [line|] eqn:Hline; cbn [mbind option_bind].
  - destruct (attributed line) as [q|] eqn:Hq.
    + pose proof (attributed_asks _ _ Hq) as [Hin _]. split.
      * intros Hall. exists q. split; [apply list_elem_of_In, Hin|].
        rewrite (Hfirst line q eq_refl Hin), Hall.
        rewrite bool_decide_eq_true_2 by exact Hq. reflexivity.
      * intros (q' & Hin' & Hq'). apply list_elem_of_In in Hin'.
        rewrite (Hfirst line q' eq_refl Hin') in Hq'.
        apply andb_true_iff in Hq' as [Heq Hall].
        apply bool_decide_eq_true in Heq.
        assert (q' = q) as -> by congruence. exact Hall.
    + split; [discriminate|]. intros (q' & Hin' & Hq').
      apply list_elem_of_In in Hin'.
      rewrite (Hfirst line q' eq_refl Hin') in Hq'.
      apply andb_true_iff in Hq' as [Heq _].
      apply bool_decide_eq_true in Heq. congruence.
  - split; [discriminate|]. intros (q' & _ & Hq').
    unfold firstOccurrence in Hq'. rewrite Hline in Hq'. discriminate.
Qed.

(** C1 (as amended): every AI-tagged line counts for the first canonical
    question, in the order of the canonical list, that its message
    contains; the extraction emits, in transcript order, each line that is
    the first to count for its question, followed by the next line when
    that one is user-tagged, and drops every other line.  On a transcript
    whose lines each contain at most one canonical question this is the
    first occurrence of each canonical question; the transcript that asks
    "How are you feeling?" twice yields its first AI/User pair only. *)
Theorem filterKeyQuestions_first_attributed (transcript : string) :
  filterKeyQuestions transcript = extract capturedByAttribution transcript
  ∧ (oneQuestionPerLine transcript →
     filterKeyQuestions transcript = extract capturedByOccurrence transcript)
  ∧ filterKeyQuestions feelingTwice
    = "AI: How are you feeling?" +:+ NL +:+ "User: Okay I guess".
Proof.
  split; [apply filterKeyQuestions_extract|]. split; [|reflexivity].
  intros Hone. rewrite filterKeyQuestions_extract. unfold extract, pairs.
  f_equal. apply flat_map_ext. intros i.
  rewrite (captured_agree _ i Hone). reflexivity.
Qed.

Lemma feelingTwice_oneQuestionPerLine : oneQuestionPerLine feelingTwice.
Proof.
  intros line q1 q2 Hline H1 H2 A1 A2.
  apply list_elem_of_In in Hline, H1, H2.
  vm_compute in Hline, H1, H2.
  repeat match goal with
         | H : _ ∨ _ |- _ => destruct H
         | H : False |- _ => destruct H
         end; subst; first [reflexivity | vm_compute in A1; discriminate
                           | vm_compute in A2; discriminate].
Defined.

Lemma filterKeyQuestions_first_attributed_witness :
  filterKeyQuestions feelingTwice = extract capturedByOccurrence feelingTwice.
Proof.
  apply (proj1 (proj2 (filterKeyQuestions_first_attributed feelingTwice))).
  exact feelingTwice_oneQuestionPerLine.
Defined.

(** C1 as stated fails when a line contains two canonical questions.  In
    [askedAgain] the question "Do you need urgent help?" first occurs on
    the first line, and the second line contains no other canonical
    question, so it is a repeat occurrence of a question already found;
    yet the extraction emits it, with its reply, because the first line
    counted for "How are you feeling?" only. *)
Lemma filterKeyQuestions_not_first_occurrence :
  firstOccurrence (split askedAgain LF) 0 "Do you need urgent help?" = true
  ∧ Forall (λ q, firstOccurrence (split askedAgain LF) 1 q = false)
           keyQuestions
  ∧ filterKeyQuestions askedAgain = askedAgain
  ∧ extract capturedByOccurrence askedAgain
    = "AI: How are you feeling? Do you need urgent help?"
  ∧ filterKeyQuestions askedAgain ≠ extract capturedByOccurrence askedAgain.
Proof.
  split; [reflexivity|]. split; [repeat constructor|].
  split; [reflexivity|]. split; [reflexivity|].
  vm_compute. discriminate.
Qed.

(** Conversely, in [twoInOneLine] the second line is the first to contain
    "Do you need urgent help?", and it is dropped, because it counts for
    "How are you feeling?", found on the line before. *)
Example filterKeyQuestions_drops_second_question :
  firstOccurrence (split twoInOneLine LF) 1 "Do you need urgent help?" = true
  ∧ filterKeyQuestions twoInOneLine = "AI: How are you feeling?".
Proof. split; reflexivity. Qed.

End KeyQuestions.

(** ** Sorting *)

Section ArraySortFacts.
Context {A : Type} (compareFn : A → A → Z).

Lemma sort_insert_Permutation (x : A) (l : list A) :
  sort_insert compareFn x l ≡ₚ x :: l.
Proof.
  induction l as [|y l IH]; cbn [sort_insert]; [reflexivity|].
  destruct (decide (compareFn x y ≤ 0)); [reflexivity|].
  rewrite IH. apply Permutation_swap.
Qed.

Lemma array_sort_Permutation (l : list A) : array_sort compareFn l ≡ₚ l.
Proof.
  induction l as [|x l IH]; cbn [array_sort]; [reflexivity|].
  rewrite sort_insert_Permutation, IH. reflexivity.
Qed.

Hypothesis before_total :
  ∀ a b, sort_before compareFn a b ∨ sort_before compareFn b a.
Hypothesis before_trans :
  ∀ a b c, sort_before compareFn a b → sort_before compareFn b c →
           sort_before compareFn a c.

Lemma sort_insert_StronglySorted (x : A) (l : list A) :
  StronglySorted (sort_before compareFn) l →
  StronglySorted (sort_before compareFn) (sort_insert compareFn x l).
Proof.
  induction 1 as [|y l Hl IH Hy]; cbn [sort_insert].
  - repeat constructor.
  - destruct (decide (compareFn x y ≤ 0)) as [Hxy|Hxy].
    + constructor; [constructor; assumption|].
      constructor; [exact Hxy|].
      eapply Forall_impl; [exact Hy|]. intros z. apply before_trans, Hxy.
    + constructor; [exact IH|].
      rewrite sort_insert_Permutation. constructor; [|exact Hy].
      destruct (before_total x y); [contradiction | assumption].
Qed.

Lemma array_sort_StronglySorted (l : list A) :
  StronglySorted (sort_before compareFn) (array_sort compareFn l).
Proof.
  induction l as [|x l IH]; cbn [array_sort]; [constructor|].
  apply sort_insert_StronglySorted, IH.
Qed.

End ArraySortFacts.

Section Ranking.
Import PatientList RankingSpec.

Lemma compareCallers_inOrder field order a b :
  compareCallers field order a b ≤ 0 ↔ inOrder field order a b.
Proof.
  unfold compareCallers, inOrder, sortKey, urgencyOrder, or_else.
  destruct field, order;
    repeat match goal with
           | |- context [urgency_level ?c] =>
               destruct (urgency_level c) as [[]|]
           end; lia.
Qed.

Lemma inOrder_total field order a b :
  inOrder field order a b ∨ inOrder field order b a.
Proof. unfold inOrder. destruct order; lia. Qed.

Lemma inOrder_trans field order a b c :
  inOrder field order a b → inOrder field order b c →
  inOrder field order a c.
Proof. unfold inOrder. destruct order; lia. Qed.

Lemma sortCallers_Permutation callers field order :
  sortCallers callers field order ≡ₚ callers.
Proof. apply array_sort_Permutation. Qed.

Lemma sortCallers_StronglySorted callers field order :
  StronglySorted (inOrder field order) (sortCallers callers field order).
Proof.
  eapply StronglySorted_weaken; [|apply array_sort_StronglySorted].
  - intros a b. apply compareCallers_inOrder.
  - intros a b. unfold sort_before. rewrite !compareCallers_inOrder.
    apply inOrder_total.
  - intros a b c. unfold sort_before. rewrite !compareCallers_inOrder.
    apply inOrder_trans.
Qed.

(** With pairwise distinct keys there is one arrangement in order. *)
Lemma inOrder_unique field order (callers l1 l2 : list ScoredCaller) :
  NoDup (sortKey field <$> callers) →
  l1 ≡ₚ callers → l2 ≡ₚ callers →
  StronglySorted (inOrder field order) l1 →
  StronglySorted (inOrder field order) l2 →
  l1 = l2.
Proof.
  intros Hnd H1 H2 S1 S2.
  apply (StronglySorted_unique_strong (inOrder field order));
    [|assumption..|rewrite H1, H2; reflexivity].
  intros x1 x2 Hx1 Hx2 R12 R21. rewrite H1 in Hx1. rewrite H2 in Hx2.
  apply (NoDup_fmap_eq (sortKey field) callers); [assumption..|].
  unfold inOrder in R12, R21. destruct order; lia.
Qed.

Lemma inOrder_flip field order a b :
  flip (inOrder field order) a b ↔ inOrder field (toggle order) a b.
Proof. destruct order; reflexivity. Qed.

(** Sorting in the other direction reverses a ties-free list, whatever
    arrangement of it is sorted. *)
Lemma sortCallers_reverse field order (callers l : list ScoredCaller) :
  NoDup (sortKey field <$> callers) → l ≡ₚ callers →
  sortCallers l field (toggle order)
  = reverse (sortCallers callers field order).
Proof.
  intros Hnd Hl.
  apply (inOrder_unique field (toggle order) callers); [exact Hnd|..].
  - rewrite sortCallers_Permutation. exact Hl.
  - rewrite reverse_Permutation. apply sortCallers_Permutation.
  - apply sortCallers_StronglySorted.
  - eapply StronglySorted_weaken; [apply inOrder_flip|].
    apply StronglySorted_reverse, sortCallers_StronglySorted.
Qed.

Lemma toggle_toggle order : toggle (toggle order) = order.
Proof. destruct order; reflexivity. Qed.

Lemma sortCallers_reverse_toggle field order
    (callers l : list ScoredCaller) :
  NoDup (sortKey field <$> callers) → l ≡ₚ callers →
  sortCallers l field order
  = reverse (sortCallers callers field (toggle order)).
Proof.
  intros Hnd Hl. rewrite <- (toggle_toggle order) at 1.
  apply sortCallers_reverse; assumption.
Qed.

(** C2: [sortCallers] rearranges the callers so that, under the urgency
    key, the numbers LOW=1, MEDIUM=2, IMMINENT=3 (1 for a missing level)
    and, under the last-call key, the last-call instants run in the chosen
    direction through the whole result; the two example callers come out
    as [phone 2; phone 1] by urgency descending and [phone 1; phone 2] by
    last call descending. *)
Theorem sortCallers_sorted callers field order :
  sortCallers callers field order ≡ₚ callers
  ∧ StronglySorted (inOrder field order) (sortCallers callers field order)
  ∧ sortCallers [caller1; caller2] urgency desc = [caller2; caller1]
  ∧ sortCallers [caller1; caller2] lastCall desc = [caller1; caller2].
Proof.
  split; [apply sortCallers_Permutation|].
  split; [apply sortCallers_StronglySorted|].
  split; reflexivity.
Qed.

(** C7: on callers whose urgency keys are pairwise distinct, sorting
    ascending what was sorted descending gives exactly the reverse, as
    does sorting the callers ascending afresh, and sorting back in the
    first direction restores the first order, whichever direction came
    first; [handleSort] on the active key turns ascending into descending
    and descending into ascending (so twice is the identity), on another
    key it makes that key active with descending order. *)
Theorem sortCallers_toggle callers :
  NoDup (sortKey urgency <$> callers) →
  sortCallers (sortCallers callers urgency desc) urgency asc
  = reverse (sortCallers callers urgency desc)
  ∧ sortCallers callers urgency asc
    = reverse (sortCallers callers urgency desc)
  ∧ sortCallers
      (sortCallers (sortCallers callers urgency desc) urgency asc)
      urgency desc
    = sortCallers callers urgency desc
  ∧ sortCallers
      (sortCallers (sortCallers callers urgency asc) urgency desc)
      urgency asc
    = sortCallers callers urgency asc
  ∧ (∀ st,
       sortField (handleSort (sortField st) st) = sortField st
       ∧ (sortOrder st = asc →
          sortOrder (handleSort (sortField st) st) = desc)
       ∧ (sortOrder st = desc →
          sortOrder (handleSort (sortField st) st) = asc)
       ∧ handleSort (sortField st) (handleSort (sortField st) st) = st)
  ∧ (∀ st field,
       field ≠ sortField st →
       sortField (handleSort field st) = field
       ∧ sortOrder (handleSort field st) = desc).
Proof.
  intros Hnd.
  assert (Hback : ∀ order,
            sortCallers
              (sortCallers (sortCallers callers urgency order)
                           urgency (toggle order))
              urgency order
            = sortCallers callers urgency order).
  { intros order.
    transitivity (reverse (sortCallers callers urgency (toggle order)));
      [|symmetry]; apply sortCallers_reverse_toggle;
      try exact Hnd; [|reflexivity].
    rewrite !sortCallers_Permutation. reflexivity. }
  split; [|split; [|split; [|split; [|split]]]].
  - apply (sortCallers_reverse urgency desc callers); [exact Hnd|].
    apply sortCallers_Permutation.
  - apply (sortCallers_reverse urgency desc callers); [exact Hnd|].
    reflexivity.
  - exact (Hback desc).
  - exact (Hback asc).
  - intros st. unfold handleSort.
    rewrite decide_True by reflexivity. cbn.
    rewrite decide_True by reflexivity. cbn.
    rewrite toggle_toggle.
    split; [reflexivity|]. split; [intros ->; reflexivity|].
    split; [intros ->; reflexivity|]. destruct st; reflexivity.
  - intros st field Hne. unfold handleSort.
    rewrite decide_False by congruence. auto.
Qed.

Lemma sortCallers_toggle_witness :
  sortCallers (sortCallers [caller1; caller2] urgency desc) urgency asc
  = reverse (sortCallers [caller1; caller2] urgency desc).
Proof.
  refine (proj1 (sortCallers_toggle [caller1; caller2] _)).
  apply (bool_decide_unpack _). vm_compute. exact I.
Defined.

End Ranking.

(** ** The call history *)

Section History.
Import PatientDetails HistorySpec.

Lemma dedupeStep_cases (acc : list Call.t) (current : Call.t) :
  (dedupeStep acc current = acc
   ∧ ∃ e, e ∈ acc ∧ Call.call_timestamp e = Call.call_timestamp current)
  ∨ (dedupeStep acc current = acc ++ [current]
     ∧ Call.call_timestamp current ∉ Call.call_timestamp <$> acc).
Proof.
  unfold dedupeStep.
  destruct (List.find _ acc) as [e|] eqn:Hfind.
  - left. split; [reflexivity|]. apply find_some in Hfind as [Hin He].
    exists e. split; [apply list_elem_of_In, Hin|].
    apply bool_decide_eq_true in He. exact He.
  - right. split; [reflexivity|]. intros Hin.
    apply list_elem_of_fmap in Hin as (e & He & Hin).
    apply list_elem_of_In in Hin.
    apply (find_none _ _ Hfind) in Hin.
    apply bool_decide_eq_false in Hin. congruence.
Qed.

Lemma dedupe_NoDup (rows acc : list Call.t) :
  NoDup (Call.call_timestamp <$> acc) →
  NoDup (Call.call_timestamp <$> foldl dedupeStep acc rows).
Proof.
  revert acc; induction rows as [|r rows IH]; intros acc Hnd; [exact Hnd|].
  cbn [foldl]. apply IH.
  destruct (dedupeStep_cases acc r) as [[-> _] | [-> Hnew]]; [exact Hnd|].
  rewrite fmap_app. apply NoDup_app. split; [exact Hnd|]. split.
  - intros t Ht Hr. apply list_elem_of_singleton in Hr as ->. auto.
  - apply NoDup_singleton.
Qed.

Lemma dedupe_extends (rows acc : list Call.t) :
  ∃ kept, foldl dedupeStep acc rows = acc ++ kept
          ∧ kept `sublist_of` rows.
Proof.
  revert acc; induction rows as [|r rows IH]; intros acc.
  - exists []. rewrite app_nil_r. split; [reflexivity | constructor].
  - cbn [foldl]. destruct (IH (dedupeStep acc r)) as (kept & -> & Hsub).
    destruct (dedupeStep_cases acc r) as [[-> _] | [-> _]].
    + exists kept. split; [reflexivity|]. apply sublist_cons, Hsub.
    + exists (r :: kept). rewrite <- app_assoc. split; [reflexivity|].
      apply sublist_skip, Hsub.
Qed.

Lemma dedupe_covers (rows acc : list Call.t) (c : Call.t) :
  c ∈ acc ++ rows →
  ∃ c', c' ∈ foldl dedupeStep acc rows
        ∧ Call.call_timestamp c' = Call.call_timestamp c.
Proof.
  revert acc c; induction rows as [|r rows IH]; intros acc c Hc.
  - rewrite app_nil_r in Hc. exists c. split; [exact Hc | reflexivity].
  - cbn [foldl].
    destruct (dedupeStep_cases acc r) as [[-> (e & He & Hts)] | [-> _]].
    + apply elem_of_app in Hc as [Hc|Hc];
        [apply IH, elem_of_app; left; exact Hc|].
      apply elem_of_cons in Hc as [->|Hc].
      * destruct (IH acc e) as (c' & Hc' & Hts');
          [apply elem_of_app; left; exact He|].
        exists c'. split; [exact Hc' | congruence].
      * apply IH, elem_of_app. right. exact Hc.
    + apply IH. rewrite <- app_assoc. exact Hc.
Qed.

Lemma find_sameTimestamp (l : list Call.t) (c : Call.t) :
  NoDup (Call.call_timestamp <$> l) → c ∈ l →
  List.find (sameTimestamp c) l = Some c.
Proof.
  induction l as [|x l IH]; intros Hnd Hc.
  - apply not_elem_of_nil in Hc as [].
  - rewrite fmap_cons in Hnd. apply NoDup_cons in Hnd as [Hx Hnd].
    cbn [List.find]. unfold sameTimestamp at 1.
    apply elem_of_cons in Hc as [->|Hc].
    + rewrite bool_decide_eq_true_2 by reflexivity. reflexivity.
    + rewrite bool_decide_eq_false_2; [apply IH; assumption|].
      intros Heq. apply Hx. rewrite Heq. apply list_elem_of_fmap_2, Hc.
Qed.

Lemma dedupe_first (rows acc : list Call.t) (c : Call.t) :
  NoDup (Call.call_timestamp <$> acc) →
  c ∈ foldl dedupeStep acc rows →
  List.find (sameTimestamp c) (acc ++ rows) = Some c.
Proof.
  revert acc; induction rows as [|r rows IH]; intros acc Hnd Hc.
  - rewrite app_nil_r. apply find_sameTimestamp; assumption.
  - cbn [foldl] in Hc.
    destruct (dedupeStep_cases acc r) as [[Hstep (e & He & Hts)] | [Hstep Hnew]];
      rewrite Hstep in Hc.
    + specialize (IH acc Hnd Hc). rewrite find_app in IH |- *.
      destruct (List.find (sameTimestamp c) acc) eqn:Hacc; [exact IH|].
      cbn [List.find]. unfold sameTimestamp at 1.
      rewrite bool_decide_eq_false_2; [exact IH|]. intros Hr.
      apply list_elem_of_In in He. apply (find_none _ _ Hacc) in He.
      apply bool_decide_eq_false in He. congruence.
    + change (r :: rows) with ([r] ++ rows). rewrite app_assoc.
      apply IH; [|exact Hc].
      rewrite fmap_app. apply NoDup_app. split; [exact Hnd|]. split.
      * intros t Ht Hr. apply list_elem_of_singleton in Hr as ->. auto.
      * apply NoDup_singleton.
Qed.

(** C3: the de-duplication of a fetched call list keeps exactly one call
    per distinct timestamp (no timestamp twice, none lost), in the order
    of the input, and the call it keeps for a timestamp is the first one
    of the input with that timestamp; rows stamped [T2; T2; T1] come out
    as the first [T2] row and the [T1] row. *)
Theorem uniqueCalls_first_per_timestamp (rows : list Call.t) :
  NoDup (Call.call_timestamp <$> uniqueCalls (Some rows))
  ∧ (∀ c, c ∈ rows →
          ∃ c', c' ∈ uniqueCalls (Some rows)
                ∧ Call.call_timestamp c' = Call.call_timestamp c)
  ∧ uniqueCalls (Some rows) `sublist_of` rows
  ∧ (∀ c, c ∈ uniqueCalls (Some rows) →
          List.find (sameTimestamp c) rows = Some c)
  ∧ uniqueCalls (Some [mkCall 3 T2; mkCall 2 T2; mkCall 1 T1])
    = [mkCall 3 T2; mkCall 1 T1].
Proof.
  unfold uniqueCalls. split; [|split; [|split; [|split]]].
  - apply dedupe_NoDup. constructor.
  - intros c Hc. apply dedupe_covers. exact Hc.
  - destruct (dedupe_extends rows []) as (kept & -> & Hsub). exact Hsub.
  - intros c Hc. apply (dedupe_first rows []); [constructor | exact Hc].
  - reflexivity.
Qed.

Lemma uniqueCalls_first_per_timestamp_witness :
  List.find (sameTimestamp (mkCall 3 T2))
            [mkCall 3 T2; mkCall 2 T2; mkCall 1 T1]
  = Some (mkCall 3 T2).
Proof.
  apply (proj1 (proj2 (proj2 (proj2 (uniqueCalls_first_per_timestamp
           [mkCall 3 T2; mkCall 2 T2; mkCall 1 T1]))))).
  vm_compute. apply list_elem_of_here.
Defined.

Lemma insertCall_cases (prevCalls : list Call.t) (newCall : Call.t) :
  (insertCall prevCalls newCall = prevCalls
   ∧ ∃ c, c ∈ prevCalls
          ∧ Call.call_timestamp c = Call.call_timestamp newCall)
  ∨ (insertCall prevCalls newCall = newCall :: prevCalls
     ∧ ∀ c, c ∈ prevCalls →
            Call.call_timestamp c ≠ Call.call_timestamp newCall).
Proof.
  unfold insertCall. destruct (existsb _ prevCalls) eqn:Hex.
  - left. split; [reflexivity|].
    apply existsb_exists in Hex as (c & Hin & Hc).
    exists c. split; [apply list_elem_of_In, Hin|].
    apply bool_decide_eq_true in Hc. exact Hc.
  - right. split; [reflexivity|]. intros c Hin Hc.
    apply not_true_iff_false in Hex. apply Hex, existsb_exists.
    exists c. split; [apply list_elem_of_In, Hin|].
    apply bool_decide_eq_true. exact Hc.
Qed.

(** C4 (as amended): the insert merge leaves the list as it is when some
    entry has the timestamp of the new call, and otherwise puts the new
    call in front of it, whatever its timestamp; applying it a second time
    with the same call changes nothing; a most-recent-first list stays
    most-recent-first when the new call is at least as recent as its
    head. *)
Theorem insertCall_idempotent (prevCalls : list Call.t) (newCall : Call.t) :
  ((∃ c, c ∈ prevCalls
         ∧ Call.call_timestamp c = Call.call_timestamp newCall) →
   insertCall prevCalls newCall = prevCalls)
  ∧ ((∀ c, c ∈ prevCalls →
           Call.call_timestamp c ≠ Call.call_timestamp newCall) →
     insertCall prevCalls newCall = newCall :: prevCalls)
  ∧ insertCall (insertCall prevCalls newCall) newCall
    = insertCall prevCalls newCall
  ∧ (∀ instant : string → Z,
       mostRecentFirst instant prevCalls →
       (∀ c, head prevCalls = Some c →
             instant (Call.call_timestamp c)
             ≤ instant (Call.call_timestamp newCall)) →
       mostRecentFirst instant (insertCall prevCalls newCall)).
Proof.
  destruct (insertCall_cases prevCalls newCall)
    as [[Heq (c & Hin & Hc)] | [Heq Hnone]].
  - split; [intros _; exact Heq|]. split; [|split].
    + intros Hno. exfalso. exact (Hno c Hin Hc).
    + rewrite Heq. exact Heq.
    + intros instant Hsorted _. rewrite Heq. exact Hsorted.
  - split; [|split; [intros _; exact Heq|split]].
    + intros (c & Hin & Hc). exfalso. exact (Hnone c Hin Hc).
    + rewrite Heq. unfold insertCall. cbn [existsb].
      rewrite bool_decide_eq_true_2 by reflexivity. reflexivity.
    + intros instant Hsorted Hhead. rewrite Heq.
      constructor; [exact Hsorted|].
      destruct prevCalls as [|c rest]; constructor.
      apply Hhead. reflexivity.
Qed.

Lemma insertCall_idempotent_witness :
  insertCall [mkCall 1 T1] (mkCall 2 T2) = [mkCall 2 T2; mkCall 1 T1]
  ∧ insertCall [mkCall 2 T2; mkCall 1 T1] (mkCall 3 T2)
    = [mkCall 2 T2; mkCall 1 T1]
  ∧ mostRecentFirst dayOf (insertCall [mkCall 1 T1] (mkCall 2 T2)).
Proof.
  split; [|split].
  - apply (proj1 (proj2 (insertCall_idempotent
                           [mkCall 1 T1] (mkCall 2 T2)))).
    intros c Hc. apply list_elem_of_singleton in Hc as ->. discriminate.
  - apply (proj1 (insertCall_idempotent
                    [mkCall 2 T2; mkCall 1 T1] (mkCall 3 T2))).
    exists (mkCall 2 T2). split; [apply list_elem_of_here | reflexivity].
  - apply (proj2 (proj2 (proj2 (insertCall_idempotent
                                  [mkCall 1 T1] (mkCall 2 T2))))).
    + repeat constructor.
    + intros c Hc. injection Hc as <-. vm_compute. discriminate.
Defined.

(** C4 as stated fails for a call that is older than the loaded ones: the
    list [[T2]] is most-recent-first, no entry has the timestamp [T1], and
    the merge puts the [T1] call in front, so the result is no longer
    most-recent-first. *)
Lemma insertCall_older_call_breaks_order :
  mostRecentFirst dayOf [mkCall 2 T2]
  ∧ dayOf T1 < dayOf T2
  ∧ insertCall [mkCall 2 T2] (mkCall 1 T1) = [mkCall 1 T1; mkCall 2 T2]
  ∧ ¬ mostRecentFirst dayOf (insertCall [mkCall 2 T2] (mkCall 1 T1)).
Proof.
  split; [repeat constructor|]. split; [reflexivity|].
  split; [reflexivity|].
  change (insertCall [mkCall 2 T2] (mkCall 1 T1))
    with [mkCall 1 T1; mkCall 2 T2].
  unfold mostRecentFirst. intros Hsorted.
  apply Sorted_inv in Hsorted as [_ Hhead].
  apply HdRel_inv in Hhead. vm_compute in Hhead. apply Hhead. reflexivity.
Qed.

(** C5: an insert notification never replaces a selected call, and
    selects the new call when none is selected. *)
Theorem onInsert_selection (st : State) (newCall : Call.t) :
  (∀ c, selectedCall st = Some c →
        selectedCall (onInsert newCall st) = Some c)
  ∧ (selectedCall st = None →
     selectedCall (onInsert newCall st) = Some newCall).
Proof.
  unfold onInsert, selectOnInsert, or_else. cbn [selectedCall].
  split; [intros c Hc | intros Hc]; rewrite Hc; reflexivity.
Qed.

Lemma onInsert_selection_witness :
  selectedCall
    (onInsert (mkCall 2 T2)
       {| calls := [mkCall 1 T1]; isLoading := false; error := None;
          selectedCall := Some (mkCall 1 T1) |})
  = Some (mkCall 1 T1)
  ∧ selectedCall
      (onInsert (mkCall 2 T2)
         {| calls := []; isLoading := false; error := None;
            selectedCall := None |})
    = Some (mkCall 2 T2).
Proof.
  split.
  - apply (proj1 (onInsert_selection
                    {| calls := [mkCall 1 T1]; isLoading := false;
                       error := None;
                       selectedCall := Some (mkCall 1 T1) |}
                    (mkCall 2 T2))).
    reflexivity.
  - apply (proj2 (onInsert_selection
                    {| calls := []; isLoading := false; error := None;
                       selectedCall := None |}
                    (mkCall 2 T2))).
    reflexivity.
Defined.

Lemma uniqueCalls_head (first : Call.t) (rest : list Call.t) :
  ∃ kept, uniqueCalls (Some (first :: rest)) = first :: kept.
Proof.
  unfold uniqueCalls. cbn [foldl].
  destruct (dedupe_extends rest (dedupeStep [] first)) as (kept & -> & _).
  exists kept. reflexivity.
Qed.

(** C10: a load that succeeds sets the selected call only when the
    de-duplicated list is not empty, to its first call; when the backend
    answers with no calls the call list becomes empty and the selected
    call stays what it was. *)
Theorem fetchCallerData_selection (resp : Response.t (list Call.t))
    (st : State) :
  Response.error resp = None →
  (uniqueCalls (Response.data resp) = [] →
   selectedCall (fetchCallerData resp st) = selectedCall st
   ∧ calls (fetchCallerData resp st) = [])
  ∧ (Response.data resp = Some [] →
     selectedCall (fetchCallerData resp st) = selectedCall st)
  ∧ (∀ first rest,
       Response.data resp = Some (first :: rest) →
       selectedCall (fetchCallerData resp st) = Some first)
  ∧ (selectedCall (fetchCallerData resp st) ≠ selectedCall st →
     uniqueCalls (Response.data resp) ≠ []).
Proof.
  intros Hok. unfold fetchCallerData. rewrite Hok.
  cbn [selectedCall calls]. split; [|split; [|split]].
  - intros ->. split; reflexivity.
  - intros ->. reflexivity.
  - intros first rest ->.
    destruct (uniqueCalls_head first rest) as [kept ->]. reflexivity.
  - intros Hchanged Hempty. apply Hchanged. rewrite Hempty. reflexivity.
Qed.

Lemma fetchCallerData_selection_witness :
  selectedCall
    (fetchCallerData
       {| Response.data := Some []; Response.error := None |}
       {| calls := [mkCall 1 T1]; isLoading := false; error := None;
          selectedCall := Some (mkCall 1 T1) |})
  = Some (mkCall 1 T1).
Proof.
  apply (proj1 (proj2 (fetchCallerData_selection
           {| Response.data := Some []; Response.error := None |}
           {| calls := [mkCall 1 T1]; isLoading := false; error := None;
              selectedCall := Some (mkCall 1 T1) |} eq_refl)));
    reflexivity.
Defined.

End History.

(** ** The source filter and the reload of the caller list *)

Section CallerList.
Import PatientList RankingSpec.

(** C6: with "All" the rendered list is the caller list itself; with a
    source channel selected every rendered caller has that channel as its
    source and no caller of that channel is left out; the rendered callers
    stand in the order they have in the caller list, so a sorted caller
    list stays sorted. *)
Theorem visibleCallers_filter (st : State) :
  (filterSource st = All → visibleCallers st = callers st)
  ∧ (filterSource st = Phone_Call →
     ∀ c, c ∈ visibleCallers st
          ↔ c ∈ callers st ∧ last_source c = Some "Phone")
  ∧ (filterSource st = Chatbot →
     ∀ c, c ∈ visibleCallers st
          ↔ c ∈ callers st ∧ last_source c = Some "Chatbot")
  ∧ visibleCallers st `sublist_of` callers st
  ∧ (∀ field order,
       StronglySorted (inOrder field order) (callers st) →
       StronglySorted (inOrder field order) (visibleCallers st)).
Proof.
  unfold visibleCallers. split; [|split; [|split; [|split]]].
  - intros ->. cbn [sourceFilter].
    induction (callers st) as [|c l IH]; [reflexivity|].
    cbn [List.filter]. rewrite IH. reflexivity.
  - intros -> c. rewrite !list_elem_of_In, filter_In.
    cbn [sourceFilter]. rewrite bool_decide_eq_true. reflexivity.
  - intros -> c. rewrite !list_elem_of_In, filter_In.
    cbn [sourceFilter]. rewrite bool_decide_eq_true. reflexivity.
  - apply filter_sublist.
  - intros field order. apply filter_StronglySorted.
Qed.

Lemma visibleCallers_filter_witness :
  visibleCallers (exampleState All) = [caller2; caller1]
  ∧ (caller1 ∈ visibleCallers (exampleState Phone_Call)
     ↔ caller1 ∈ callers (exampleState Phone_Call)
       ∧ last_source caller1 = Some "Phone")
  ∧ StronglySorted (inOrder urgency desc)
                   (visibleCallers (exampleState Chatbot)).
Proof.
  split; [|split].
  - apply (proj1 (visibleCallers_filter (exampleState All))). reflexivity.
  - apply (proj1 (proj2 (visibleCallers_filter (exampleState Phone_Call)))).
    reflexivity.
  - apply (proj2 (proj2 (proj2 (proj2
             (visibleCallers_filter (exampleState Chatbot)))))).
    repeat constructor; vm_compute; discriminate.
Defined.

Lemma truthy_string_Some (s : string) :
  s ≠ EmptyString → truthy_string (Some s) = Some s.
Proof. destruct s; [congruence | reflexivity]. Qed.

(** C8: when the caller list is fetched, every fetched caller is in the
    new list exactly as often as it was fetched, whatever the answers to
    the per-caller lookups; a caller whose lookup failed, or found no
    call, carries no urgency level and no source; a caller whose lookup
    answered with rows
    carries the urgency level of the first row and its source (an empty
    source string counting as none). *)
Theorem fetchCallersAndScores_isolates_lookups (be : Backend) (st : State)
    (callersData : list Caller.t) :
  Response.error (fetchCallers be) = None →
  Response.data (fetchCallers be) = Some callersData →
  callers (fetchCallersAndScores be st).1 ≡ₚ withScore be <$> callersData
  ∧ ∀ c, c ∈ callersData →
      withScore be c ∈ callers (fetchCallersAndScores be st).1
      ∧ caller (withScore be c) = c
      ∧ (Response.data (fetchLastCall be (Caller.phone_number c)) = None
         ∨ Response.data (fetchLastCall be (Caller.phone_number c)) = Some [] →
         urgency_level (withScore be c) = None
         ∧ last_source (withScore be c) = None)
      ∧ (∀ row rest,
           Response.data (fetchLastCall be (Caller.phone_number c))
           = Some (row :: rest) →
           urgency_level (withScore be c) = row_urgency_level row
           ∧ (∀ s, row_source row = Some s → s ≠ EmptyString →
                   last_source (withScore be c) = Some s)
           ∧ (row_source row = None ∨ row_source row = Some EmptyString →
              last_source (withScore be c) = None)).
Proof.
  intros Herr Hdata.
  assert (Hperm : callers (fetchCallersAndScores be st).1
                  ≡ₚ withScore be <$> callersData).
  { unfold fetchCallersAndScores. rewrite Herr, Hdata. cbn [or_else].
    destruct (truthy_string (selectedId st)) as [sel|];
      [destruct (List.find _ _)|]; cbn [fst callers];
      apply sortCallers_Permutation. }
  split; [exact Hperm|]. intros c Hc. split; [|split; [|split]].
  - rewrite Hperm. apply list_elem_of_fmap_2, Hc.
  - reflexivity.
  - intros [Hfail | Hfail]; unfold withScore; rewrite Hfail;
      split; reflexivity.
  - intros row rest Hrows. unfold withScore. rewrite Hrows.
    cbn [mbind option_bind head urgency_level last_source].
    split; [reflexivity|]. split.
    + intros s -> Hs. apply truthy_string_Some, Hs.
    + intros [-> | ->]; reflexivity.
Qed.

Lemma fetchCallersAndScores_isolates_lookups_witness :
  callers (fetchCallersAndScores flakyBackend (exampleState All)).1
  ≡ₚ withScore flakyBackend <$> [caller caller1; caller caller2].
Proof.
  apply (fetchCallersAndScores_isolates_lookups flakyBackend
           (exampleState All) [caller caller1; caller caller2]);
    reflexivity.
Defined.

(** C9: when the caller list cannot be fetched, the run logs the error
    and does nothing else: the state, and with it the caller list, is the
    one before the run, and no selection is emitted. *)
Theorem fetchCallersAndScores_error (be : Backend) (st : State)
    (callersError : string) :
  Response.error (fetchCallers be) = Some callersError →
  fetchCallersAndScores be st = (st, [ConsoleError callersError]).
Proof.
  intros Herr. unfold fetchCallersAndScores. rewrite Herr. reflexivity.
Qed.

Lemma fetchCallersAndScores_error_witness :
  fetchCallersAndScores downBackend (exampleState All)
  = (exampleState All, [ConsoleError "unreachable"]).
Proof.
  apply (fetchCallersAndScores_error downBackend (exampleState All)).
  reflexivity.
Defined.

End CallerList.

(** ** More on sorting: fixed points and stability *)

Section ArraySortStable.
Context {A : Type} (compareFn : A → A → Z).

Lemma sort_insert_head (x : A) (l : list A) :
  HdRel (sort_before compareFn) x l → sort_insert compareFn x l = x :: l.
Proof.
  destruct 1 as [|y l Hxy]; cbn [sort_insert]; [reflexivity|].
  rewrite decide_True by exact Hxy. reflexivity.
Qed.

(** A list already in order is left as it is. *)
Lemma array_sort_Sorted (l : list A) :
  Sorted (sort_before compareFn) l → array_sort compareFn l = l.
Proof.
  induction 1 as [|x l Hl IH Hx]; cbn [array_sort]; [reflexivity|].
  rewrite IH. apply sort_insert_head, Hx.
Qed.

(** Elements that compare as equal are never moved past one another. *)
Lemma filter_sort_insert (p : A → bool) (x : A) (l : list A) :
  (∀ a b, p a = true → p b = true → compareFn a b ≤ 0) →
  List.filter p (sort_insert compareFn x l) = List.filter p (x :: l).
Proof.
  intros Hp. induction l as [|y l IH]; cbn [sort_insert]; [reflexivity|].
  destruct (decide (compareFn x y ≤ 0)) as [Hxy|Hxy]; [reflexivity|].
  cbn [List.filter] in IH |- *. rewrite IH.
  destruct (p x) eqn:Hx, (p y) eqn:Hy; try reflexivity.
  exfalso. apply Hxy, Hp; assumption.
Qed.

Lemma filter_array_sort (p : A → bool) (l : list A) :
  (∀ a b, p a = true → p b = true → compareFn a b ≤ 0) →
  List.filter p (array_sort compareFn l) = List.filter p l.
Proof.
  intros Hp. induction l as [|x l IH]; cbn [array_sort]; [reflexivity|].
  rewrite (filter_sort_insert p x _ Hp). cbn [List.filter]. rewrite IH.
  reflexivity.
Qed.

(** A second order that the input respects survives among the elements
    that compare as equal. *)
Hypothesis compare_total : ∀ a b, compareFn a b ≤ 0 ∨ compareFn b a ≤ 0.
Hypothesis compare_trans :
  ∀ a b c, compareFn a b ≤ 0 → compareFn b c ≤ 0 → compareFn a c ≤ 0.

Lemma sort_insert_refined (earlier : relation A) (x : A) (l : list A) :
  StronglySorted (refined compareFn earlier) l → Forall (earlier x) l →
  StronglySorted (refined compareFn earlier) (sort_insert compareFn x l).
Proof.
  induction 1 as [|y l Hl IH Hy]; intros Hx; cbn [sort_insert].
  - repeat constructor.
  - apply Forall_cons in Hx as [Hxy Hx].
    destruct (decide (compareFn x y ≤ 0)) as [Hle|Hgt].
    + constructor; [constructor; assumption|].
      constructor; [split; [exact Hle | intros _; exact Hxy]|].
      rewrite Forall_forall in Hy, Hx |- *. intros z Hz. split.
      * eapply compare_trans; [exact Hle | apply (Hy z Hz)].
      * intros _. apply Hx, Hz.
    + constructor; [apply IH, Hx|].
      rewrite sort_insert_Permutation. constructor; [|exact Hy].
      split; [|intros Hle; contradiction].
      destruct (compare_total x y); [contradiction | assumption].
Qed.

Lemma array_sort_refined (earlier : relation A) (l : list A) :
  StronglySorted earlier l →
  StronglySorted (refined compareFn earlier) (array_sort compareFn l).
Proof.
  induction 1 as [|x l Hl IH Hx]; cbn [array_sort]; [constructor|].
  apply sort_insert_refined; [exact IH|].
  rewrite array_sort_Permutation. exact Hx.
Qed.

End ArraySortStable.

(** ** The caller list: stability, reload and selection *)

Section CallerListMore.
Import PatientList RankingSpec PatientListView.

Lemma compareCallers_total field order a b :
  compareCallers field order a b ≤ 0 ∨ compareCallers field order b a ≤ 0.
Proof. rewrite !compareCallers_inOrder. apply inOrder_total. Qed.

Lemma compareCallers_trans field order a b c :
  compareCallers field order a b ≤ 0 → compareCallers field order b c ≤ 0 →
  compareCallers field order a c ≤ 0.
Proof. rewrite !compareCallers_inOrder. apply inOrder_trans. Qed.

(** X1: sorting is stable: the callers that share a sort key stand in the
    result in the order they had in the input. *)
Theorem sortCallers_stable callers field order (k : Z) :
  List.filter (λ c, bool_decide (sortKey field c = k))
              (sortCallers callers field order)
  = List.filter (λ c, bool_decide (sortKey field c = k)) callers.
Proof.
  apply filter_array_sort. intros a b Ha Hb.
  apply bool_decide_eq_true in Ha, Hb.
  apply compareCallers_inOrder. unfold inOrder. destruct order; lia.
Qed.

(** X2: a caller list that is already in the chosen order is returned as
    it is; in particular sorting a second time changes nothing. *)
Theorem sortCallers_fixpoint callers field order :
  (StronglySorted (inOrder field order) callers →
   sortCallers callers field order = callers)
  ∧ sortCallers (sortCallers callers field order) field order
    = sortCallers callers field order.
Proof.
  assert (Hfix : ∀ l, StronglySorted (inOrder field order) l →
                      sortCallers l field order = l).
  { intros l Hl. apply array_sort_Sorted, StronglySorted_Sorted.
    eapply StronglySorted_weaken; [|exact Hl].
    intros a b. apply compareCallers_inOrder. }
  split; [apply Hfix|]. apply Hfix, sortCallers_StronglySorted.
Qed.

Lemma sortCallers_fixpoint_witness :
  sortCallers [caller2; caller1] urgency desc = [caller2; caller1].
Proof.
  apply (proj1 (sortCallers_fixpoint [caller2; caller1] urgency desc)).
  repeat constructor; vm_compute; discriminate.
Defined.

Lemma fetchCallersAndScores_callers (be : Backend) (st : State) :
  Response.error (fetchCallers be) = None →
  callers (fetchCallersAndScores be st).1
  = sortCallers (withScore be <$> or_else (Response.data (fetchCallers be)) [])
                (sortField st) (sortOrder st).
Proof.
  intros Herr. unfold fetchCallersAndScores. rewrite Herr.
  destruct (truthy_string (selectedId st)) as [sel|];
    [destruct (List.find _ _)|]; reflexivity.
Qed.

Lemma caller_withScore (be : Backend) (rows : list Caller.t) :
  caller <$> (withScore be <$> rows) = rows.
Proof.
  induction rows as [|row rows IH]; [reflexivity|].
  rewrite !fmap_cons, IH. reflexivity.
Qed.

(** X3: a run of the reload never touches the selected id, the sort key,
    the sort order or the filter; when the caller list is fetched, the
    callers of the new list are the fetched rows, each as often as it was
    fetched, and the new list is in the order that the state's sort key
    and sort order announce. *)
Theorem fetchCallersAndScores_frame (be : Backend) (st : State) :
  selectedId (fetchCallersAndScores be st).1 = selectedId st
  ∧ sortField (fetchCallersAndScores be st).1 = sortField st
  ∧ sortOrder (fetchCallersAndScores be st).1 = sortOrder st
  ∧ filterSource (fetchCallersAndScores be st).1 = filterSource st
  ∧ (Response.error (fetchCallers be) = None →
     caller <$> callers (fetchCallersAndScores be st).1
     ≡ₚ or_else (Response.data (fetchCallers be)) []
     ∧ length (callers (fetchCallersAndScores be st).1)
       = length (or_else (Response.data (fetchCallers be)) [])
     ∧ StronglySorted
         (inOrder (sortField (fetchCallersAndScores be st).1)
                  (sortOrder (fetchCallersAndScores be st).1))
         (callers (fetchCallersAndScores be st).1)).
Proof.
  assert (Hframe : selectedId (fetchCallersAndScores be st).1 = selectedId st
    ∧ sortField (fetchCallersAndScores be st).1 = sortField st
    ∧ sortOrder (fetchCallersAndScores be st).1 = sortOrder st
    ∧ filterSource (fetchCallersAndScores be st).1 = filterSource st).
  { unfold fetchCallersAndScores.
    destruct (Response.error (fetchCallers be)); [auto|].
    destruct (truthy_string (selectedId st)) as [sel|];
      [destruct (List.find _ _)|]; auto. }
  destruct Hframe as (H1 & H2 & H3 & H4).
  repeat (split; [assumption|]). intros Herr.
  rewrite H2, H3, (fetchCallersAndScores_callers be st Herr).
  split; [|split].
  - rewrite sortCallers_Permutation, caller_withScore. reflexivity.
  - rewrite sortCallers_Permutation, length_fmap. reflexivity.
  - apply sortCallers_StronglySorted.
Qed.

Lemma fetchCallersAndScores_frame_witness :
  StronglySorted (inOrder urgency desc)
    (callers (fetchCallersAndScores flakyBackend (exampleState All)).1).
Proof.
  apply (proj2 (proj2 (proj2 (proj2
           (fetchCallersAndScores_frame flakyBackend (exampleState All)))))).
  reflexivity.
Defined.

Lemma truthy_string_inv (x : option string) (sel : string) :
  truthy_string x = Some sel ↔ x = Some sel ∧ sel ≠ EmptyString.
Proof.
  destruct x as [[|a r]|]; cbn [truthy_string]; split;
    try discriminate; try (intros [H _]; discriminate).
  - intros [H Hne]. congruence.
  - intros H. injection H as <-. split; [reflexivity | discriminate].
  - intros [H _]. exact H.
Qed.

Lemma effects_selected (be : Backend) (st : State) (sel : string) :
  Response.error (fetchCallers be) = None →
  truthy_string (selectedId st) = Some sel →
  (fetchCallersAndScores be st).2
  = match List.find (λ c, bool_decide (phone_number c = sel))
                    (callers (fetchCallersAndScores be st).1) with
    | Some c => [OnSelect c]
    | None => []
    end.
Proof.
  intros Herr Hsel. unfold fetchCallersAndScores. rewrite Herr, Hsel.
  destruct (List.find _ _) eqn:Hfind; cbn [fst snd callers];
    rewrite Hfind; reflexivity.
Qed.

Lemma effects_unselected (be : Backend) (st : State) :
  Response.error (fetchCallers be) = None →
  truthy_string (selectedId st) = None →
  (fetchCallersAndScores be st).2 = [].
Proof.
  intros Herr Hsel. unfold fetchCallersAndScores. rewrite Herr, Hsel.
  reflexivity.
Qed.

(** X4: when the caller list is fetched the run has at most one effect, the
    re-emission of the selected caller: it happens exactly when the selected
    id is a non-empty phone number of a caller of the new list, and what is
    emitted is the first caller of the new list with that phone number. *)
Theorem fetchCallersAndScores_reemits (be : Backend) (st : State) :
  Response.error (fetchCallers be) = None →
  (∀ c, OnSelect c ∈ (fetchCallersAndScores be st).2 →
        (fetchCallersAndScores be st).2 = [OnSelect c]
        ∧ selectedId st = Some (phone_number c)
        ∧ phone_number c ≠ EmptyString
        ∧ List.find (λ c', bool_decide (phone_number c' = phone_number c))
                    (callers (fetchCallersAndScores be st).1) = Some c)
  ∧ (∀ c, c ∈ callers (fetchCallersAndScores be st).1 →
          selectedId st = Some (phone_number c) →
          phone_number c ≠ EmptyString →
          ∃ c', (fetchCallersAndScores be st).2 = [OnSelect c']
                ∧ phone_number c' = phone_number c)
  ∧ ((fetchCallersAndScores be st).2 = []
     ∨ ∃ c, (fetchCallersAndScores be st).2 = [OnSelect c]).
Proof.
  intros Herr.
  destruct (truthy_string (selectedId st)) as [sel|] eqn:Hsel.
  - rewrite (effects_selected be st sel Herr Hsel).
    apply truthy_string_inv in Hsel as [Hsel Hne].
    destruct (List.find _ _) as [found|] eqn:Hfind.
    + pose proof (find_some _ _ Hfind) as [Hin Hphone].
      apply bool_decide_eq_true in Hphone. split; [|split].
      * intros c Hc. apply list_elem_of_singleton in Hc. injection Hc as ->.
        rewrite Hphone. auto.
      * intros c _ Heq _. exists found. split; [reflexivity | congruence].
      * right. exists found. reflexivity.
    + split; [|split].
      * intros c Hc. apply not_elem_of_nil in Hc as [].
      * intros c Hc Heq _. exfalso. apply list_elem_of_In in Hc.
        apply (find_none _ _ Hfind) in Hc.
        apply bool_decide_eq_false in Hc. congruence.
      * left. reflexivity.
  - rewrite (effects_unselected be st Herr Hsel). split; [|split].
    + intros c Hc. apply not_elem_of_nil in Hc as [].
    + intros c _ Heq Hne. exfalso.
      assert (truthy_string (selectedId st) = Some (phone_number c)) as H
        by (apply truthy_string_inv; auto).
      congruence.
    + left. reflexivity.
Qed.


Lemma fetchCallersAndScores_reemits_witness :
  ∃ c', (fetchCallersAndScores flakyBackend selectedState).2 = [OnSelect c']
        ∧ phone_number c'
          = phone_number (withScore flakyBackend (caller caller2)).
Proof.
  apply (proj1 (proj2 (fetchCallersAndScores_reemits flakyBackend
                         selectedState eq_refl))
               (withScore flakyBackend (caller caller2))).
  - vm_compute. apply list_elem_of_here.
  - reflexivity.
  - discriminate.
Defined.

(** X5: under the urgency key, callers of equal urgency stand in the order
    the backend returned them: when the rows come last call first, as the
    query asks, the new list is ordered by urgency and, within one urgency,
    by last call, most recent first. *)
Theorem fetchCallersAndScores_urgency_then_recency (be : Backend)
    (st : State) (callersData : list Caller.t) :
  Response.error (fetchCallers be) = None →
  Response.data (fetchCallers be) = Some callersData →
  sortField st = urgency →
  StronglySorted lastCallFirst callersData →
  StronglySorted (urgencyThenRecency (sortOrder st))
                 (callers (fetchCallersAndScores be st).1).
Proof.
  intros Herr Hdata Hfield Hrows.
  rewrite (fetchCallersAndScores_callers be st Herr), Hdata, Hfield.
  cbn [or_else]. unfold sortCallers.
  eapply StronglySorted_weaken;
    [|apply (array_sort_refined (compareCallers urgency (sortOrder st))
               (compareCallers_total urgency (sortOrder st))
               (compareCallers_trans urgency (sortOrder st))
               (λ a b, last_call_timestamp b ≤ last_call_timestamp a))].
  - intros a b [Hab Hba]. split; [apply compareCallers_inOrder, Hab|].
    intros Hkey. apply Hba, compareCallers_inOrder.
    unfold inOrder. destruct (sortOrder st); lia.
  - eapply StronglySorted_fmap; [|exact Hrows]. intros x y Hxy. exact Hxy.
Qed.

Lemma fetchCallersAndScores_urgency_then_recency_witness :
  StronglySorted (urgencyThenRecency desc)
    (callers (fetchCallersAndScores flakyBackend (exampleState All)).1).
Proof.
  apply (fetchCallersAndScores_urgency_then_recency flakyBackend
           (exampleState All) [caller caller1; caller caller2]);
    [reflexivity | reflexivity | reflexivity |].
  repeat constructor. vm_compute. discriminate.
Defined.

Lemma filter_three_way {A : Type} (p q r : A → bool) (l : list A) :
  (∀ x, (p x = true ∧ q x = false ∧ r x = false)
        ∨ (p x = false ∧ q x = true ∧ r x = false)
        ∨ (p x = false ∧ q x = false ∧ r x = true)) →
  l ≡ₚ List.filter p l ++ List.filter q l ++ List.filter r l.
Proof.
  intros Hone. induction l as [|x l IH]; [reflexivity|].
  cbn [List.filter].
  destruct (Hone x) as [(-> & -> & ->) | [(-> & -> & ->) | (-> & -> & ->)]].
  - cbn [app]. constructor. exact IH.
  - cbn [app]. rewrite <- Permutation_middle. constructor. exact IH.
  - rewrite app_assoc, <- Permutation_middle, <- app_assoc.
    constructor. exact IH.
Qed.

Lemma sourceFilter_cases (c : ScoredCaller) :
  (sourceFilter Phone_Call c = true ∧ sourceFilter Chatbot c = false
   ∧ otherSource c = false)
  ∨ (sourceFilter Phone_Call c = false ∧ sourceFilter Chatbot c = true
     ∧ otherSource c = false)
  ∨ (sourceFilter Phone_Call c = false ∧ sourceFilter Chatbot c = false
     ∧ otherSource c = true).
Proof.
  unfold otherSource. cbn [sourceFilter].
  destruct (bool_decide (last_source c = Some "Phone")) eqn:Hp,
           (bool_decide (last_source c = Some "Chatbot")) eqn:Hc; auto.
  apply bool_decide_eq_true in Hp, Hc. congruence.
Qed.

(** X6: the two channel tabs never show the same caller, and together with
    the callers of any other or of no source they make up the whole list;
    a caller without a source is shown under "All" only. *)
Theorem sourceFilter_partition (st : State) :
  callers st
  ≡ₚ visibleCallers (setFilterSource Phone_Call st)
     ++ visibleCallers (setFilterSource Chatbot st)
     ++ List.filter otherSource (callers st)
  ∧ (∀ c, c ∈ visibleCallers (setFilterSource Phone_Call st) →
          c ∉ visibleCallers (setFilterSource Chatbot st))
  ∧ (∀ c f, c ∈ callers st → last_source c = None →
            (c ∈ visibleCallers (setFilterSource f st) ↔ f = All)).
Proof.
  unfold visibleCallers, setFilterSource. cbn [callers filterSource].
  split; [|split].
  - apply filter_three_way, sourceFilter_cases.
  - intros c Hp Hc. apply list_elem_of_In, filter_In in Hp as [_ Hp].
    apply list_elem_of_In, filter_In in Hc as [_ Hc].
    destruct (sourceFilter_cases c) as [H | [H | H]];
      destruct H as (H1 & H2 & H3); congruence.
  - intros c f Hc Hnone. rewrite list_elem_of_In, filter_In.
    rewrite <- list_elem_of_In. unfold sourceFilter. rewrite Hnone.
    destruct f; split; try tauto; try discriminate.
    + intros [_ H]. apply bool_decide_eq_true in H. discriminate.
    + intros [_ H]. apply bool_decide_eq_true in H. discriminate.
Qed.

Lemma sourceFilter_partition_witness :
  caller1 ∉ visibleCallers (setFilterSource Chatbot (exampleState All)).
Proof.
  apply (proj1 (proj2 (sourceFilter_partition (exampleState All)))).
  vm_compute. apply list_elem_of_here.
Defined.

(** X7: clicking a caller row and then reloading re-emits a caller with the
    same phone number, taken from the freshly fetched rows, provided that
    number is not empty and still among the fetched callers; a caller with
    an empty phone number is never re-emitted. *)
Theorem selectCaller_then_reload (be : Backend) (st : State)
    (c : ScoredCaller) :
  Response.error (fetchCallers be) = None →
  (phone_number c ≠ EmptyString →
   (∃ row, row ∈ or_else (Response.data (fetchCallers be)) []
           ∧ Caller.phone_number row = phone_number c) →
   ∃ c' row,
     (fetchCallersAndScores be (selectCaller c st).1).2 = [OnSelect c']
     ∧ phone_number c' = phone_number c
     ∧ row ∈ or_else (Response.data (fetchCallers be)) []
     ∧ c' = withScore be row)
  ∧ (phone_number c = EmptyString →
     (fetchCallersAndScores be (selectCaller c st).1).2 = []).
Proof.
  intros Herr. split.
  - intros Hne (row & Hrow & Hphone).
    assert (Hsel : truthy_string (selectedId (selectCaller c st).1)
                   = Some (phone_number c))
      by (apply truthy_string_inv; auto).
    rewrite (effects_selected be _ _ Herr Hsel).
    rewrite (fetchCallersAndScores_callers _ _ Herr).
    destruct (List.find _ _) as [found|] eqn:Hfind.
    + apply find_some in Hfind as [Hin Hfound].
      apply bool_decide_eq_true in Hfound. apply list_elem_of_In in Hin.
      rewrite sortCallers_Permutation in Hin.
      apply list_elem_of_fmap in Hin as (row' & -> & Hrow').
      exists (withScore be row'), row'. auto.
    + exfalso.
      assert (Hin : In (withScore be row)
                       (sortCallers
                          (withScore be
                             <$> or_else (Response.data (fetchCallers be)) [])
                          (sortField (selectCaller c st).1)
                          (sortOrder (selectCaller c st).1))).
      { apply list_elem_of_In. rewrite sortCallers_Permutation.
        apply list_elem_of_fmap_2, Hrow. }
      apply (find_none _ _ Hfind) in Hin.
      apply bool_decide_eq_false in Hin. apply Hin. exact Hphone.
  - intros Hempty. apply effects_unselected; [exact Herr|].
    cbn [selectCaller fst selectedId]. rewrite Hempty. reflexivity.
Qed.

Lemma selectCaller_then_reload_witness :
  ∃ c' row,
    (fetchCallersAndScores flakyBackend
       (selectCaller caller2 (exampleState All)).1).2 = [OnSelect c']
    ∧ phone_number c' = phone_number caller2
    ∧ row ∈ or_else (Response.data (fetchCallers flakyBackend)) []
    ∧ c' = withScore flakyBackend row.
Proof.
  apply (proj1 (selectCaller_then_reload flakyBackend (exampleState All)
                  caller2 eq_refl)).
  - discriminate.
  - exists (caller caller2). split; [|reflexivity].
    apply list_elem_of_further, list_elem_of_here.
Defined.

End CallerListMore.

(** ** The call history: every sequence of events *)

Section HistoryMore.
Import PatientDetails HistorySpec PatientDetailsView.

Lemma run_snoc (events : list Event) (e : Event) :
  run (events ++ [e]) = step (run events) e.
Proof. unfold run. rewrite foldl_app. reflexivity. Qed.

Lemma uniqueCalls_NoDup (callsData : option (list Call.t)) :
  NoDup (Call.call_timestamp <$> uniqueCalls callsData).
Proof.
  destruct callsData as [rows|]; cbn [uniqueCalls]; [|constructor].
  apply dedupe_NoDup. constructor.
Qed.

Lemma insertCall_NoDup (prevCalls : list Call.t) (newCall : Call.t) :
  NoDup (Call.call_timestamp <$> prevCalls) →
  NoDup (Call.call_timestamp <$> insertCall prevCalls newCall).
Proof.
  intros Hnd.
  destruct (insertCall_cases prevCalls newCall) as [[-> _] | [-> Hnew]];
    [exact Hnd|].
  rewrite fmap_cons. apply NoDup_cons. split; [|exact Hnd].
  intros Hin. apply list_elem_of_fmap in Hin as (c & Hts & Hc).
  apply (Hnew c Hc). congruence.
Qed.

(** X8: whatever loads, insert notifications and clicks arrive, and in
    whatever order, the call list never holds two calls with the same
    timestamp, and as soon as it holds a call some call is selected. *)
Theorem run_invariant (events : list Event) :
  NoDup (Call.call_timestamp <$> calls (run events))
  ∧ (selectedCall (run events) = None → calls (run events) = []).
Proof.
  induction events as [|e events [IHnd IHsel]] using rev_ind.
  - split; [constructor | reflexivity].
  - rewrite run_snoc. destruct e as [|resp|newCall|call]; cbn [step].
    + split; assumption.
    + unfold fetchCallerData.
      destruct (Response.error resp); cbn [calls selectedCall];
        [split; assumption|].
      split; [apply uniqueCalls_NoDup|].
      destruct (uniqueCalls (Response.data resp)); [reflexivity|discriminate].
    + cbn [onInsert calls selectedCall]. split; [|discriminate].
      apply insertCall_NoDup, IHnd.
    + cbn [selectCall calls selectedCall]. split; [exact IHnd|discriminate].
Qed.

Lemma run_invariant_witness :
  calls (run [LoadStarted;
              LoadFinished {| Response.data := Some [];
                              Response.error := None |}]) = [].
Proof.
  apply (proj2 (run_invariant
                  [LoadStarted;
                   LoadFinished {| Response.data := Some [];
                                   Response.error := None |}])).
  reflexivity.
Defined.

(** X9: a load that fails keeps the call list and the selected call,
    records the message and ends the loading state; the error screen shows
    exactly when the message is not empty; a later load that succeeds
    clears the error and brings back the main screen. *)
Theorem fetchCallerData_failure (resp : Response.t (list Call.t))
    (st : State) (message : string) :
  Response.error resp = Some message →
  calls (fetchCallerData resp st) = calls st
  ∧ selectedCall (fetchCallerData resp st) = selectedCall st
  ∧ error (fetchCallerData resp st) = Some message
  ∧ (message ≠ EmptyString →
     screen (fetchCallerData resp st) = ErrorScreen message)
  ∧ (message = EmptyString → screen (fetchCallerData resp st) = MainScreen)
  ∧ (∀ retry, Response.error retry = None →
       error (fetchCallerData retry (fetchCallerData resp st)) = None
       ∧ screen (fetchCallerData retry (fetchCallerData resp st))
         = MainScreen
       ∧ calls (fetchCallerData retry (fetchCallerData resp st))
         = uniqueCalls (Response.data retry)).
Proof.
  intros Herr. unfold fetchCallerData at 1 2 3 4 5. rewrite Herr.
  cbn [calls selectedCall error]. unfold screen. cbn [isLoading error].
  repeat (split; [reflexivity|]). split; [|split].
  - intros Hne. destruct message; [congruence | reflexivity].
  - intros ->. reflexivity.
  - intros retry Hok. unfold fetchCallerData. rewrite Hok, Herr.
    cbn [error isLoading calls truthy_string]. auto.
Qed.

Lemma fetchCallerData_failure_witness :
  screen (fetchCallerData
            {| Response.data := None; Response.error := Some "timeout" |}
            initial)
  = ErrorScreen "timeout".
Proof.
  apply (proj1 (proj2 (proj2 (proj2
           (fetchCallerData_failure
              {| Response.data := None; Response.error := Some "timeout" |}
              initial "timeout" eq_refl))))).
  discriminate.
Defined.

Lemma dedupe_distinct (rows acc : list Call.t) :
  NoDup (Call.call_timestamp <$> acc ++ rows) →
  foldl dedupeStep acc rows = acc ++ rows.
Proof.
  revert acc; induction rows as [|r rows IH]; intros acc Hnd.
  - rewrite app_nil_r. reflexivity.
  - cbn [foldl]. change (r :: rows) with ([r] ++ rows) in Hnd |- *.
    rewrite app_assoc in Hnd |- *.
    destruct (dedupeStep_cases acc r) as [[_ (e & He & Hts)] | [-> _]];
      [exfalso | apply IH, Hnd].
    rewrite !fmap_app in Hnd. apply NoDup_app in Hnd as [Hnd _].
    apply NoDup_app in Hnd as (_ & Hdisj & _).
    apply (Hdisj (Call.call_timestamp e)).
    + apply list_elem_of_fmap_2, He.
    + rewrite Hts. apply list_elem_of_here.
Qed.

(** X10: a fetched list whose timestamps are pairwise distinct passes the
    de-duplication unchanged; de-duplicating twice is de-duplicating once;
    and the result is never longer than the input. *)
Theorem uniqueCalls_fixpoint (rows : list Call.t) :
  (NoDup (Call.call_timestamp <$> rows) → uniqueCalls (Some rows) = rows)
  ∧ uniqueCalls (Some (uniqueCalls (Some rows))) = uniqueCalls (Some rows)
  ∧ (length (uniqueCalls (Some rows)) ≤ length rows)%nat.
Proof.
  assert (Hfix : ∀ l, NoDup (Call.call_timestamp <$> l) →
                      uniqueCalls (Some l) = l).
  { intros l Hl. apply (dedupe_distinct l []). exact Hl. }
  split; [apply Hfix|]. split.
  - apply Hfix, uniqueCalls_NoDup.
  - cbn [uniqueCalls].
    destruct (dedupe_extends rows []) as (kept & -> & Hsub).
    apply sublist_length, Hsub.
Qed.

Lemma uniqueCalls_fixpoint_witness :
  uniqueCalls (Some [mkCall 2 T2; mkCall 1 T1]) = [mkCall 2 T2; mkCall 1 T1].
Proof.
  apply (proj1 (uniqueCalls_fixpoint [mkCall 2 T2; mkCall 1 T1])).
  apply (bool_decide_unpack _). vm_compute. exact I.
Defined.

Lemma dedupe_fresh_head (rows acc : list Call.t) (c : Call.t) :
  Call.call_timestamp c ∉ Call.call_timestamp <$> rows →
  foldl dedupeStep (c :: acc) rows = c :: foldl dedupeStep acc rows.
Proof.
  revert acc; induction rows as [|r rows IH]; intros acc Hfresh;
    [reflexivity|].
  rewrite fmap_cons, not_elem_of_cons in Hfresh. destruct Hfresh as [Hr Hfresh].
  cbn [foldl]. rewrite <- (IH (dedupeStep acc r) Hfresh). f_equal.
  unfold dedupeStep. cbn [List.find].
  rewrite bool_decide_eq_false_2 by exact Hr.
  destruct (List.find _ acc); reflexivity.
Qed.

(** X11: the live insert agrees with a reload: when no loaded call has the
    timestamp of the new call, merging the new call into the loaded list
    gives the list that loading the rows with the new call in front gives;
    otherwise the merge keeps the loaded list. *)
Theorem insertCall_agrees_with_reload (rows : list Call.t)
    (newCall : Call.t) :
  (Call.call_timestamp newCall ∉ Call.call_timestamp <$> rows →
   insertCall (uniqueCalls (Some rows)) newCall
   = uniqueCalls (Some (newCall :: rows)))
  ∧ (Call.call_timestamp newCall ∈ Call.call_timestamp <$> rows →
     insertCall (uniqueCalls (Some rows)) newCall = uniqueCalls (Some rows)).
Proof.
  destruct (dedupe_extends rows []) as (kept & Hkept & Hsub).
  cbn [app] in Hkept.
  destruct (insertCall_cases (uniqueCalls (Some rows)) newCall)
    as [[Heq (c & Hc & Hts)] | [Heq Hnone]].
  - split; [|intros _; exact Heq]. intros Hfresh. exfalso. apply Hfresh.
    rewrite <- Hts. apply list_elem_of_fmap_2.
    cbn [uniqueCalls] in Hc. rewrite Hkept in Hc.
    apply (sublist_subseteq _ _ Hsub), Hc.
  - split.
    + intros Hfresh. rewrite Heq. cbn [uniqueCalls foldl].
      change (dedupeStep [] newCall) with [newCall].
      rewrite (dedupe_fresh_head rows [] newCall Hfresh). reflexivity.
    + intros Hin. exfalso.
      apply list_elem_of_fmap in Hin as (c & Hts & Hc).
      destruct (dedupe_covers rows [] c Hc) as (c' & Hc' & Hts').
      apply (Hnone c' Hc'). congruence.
Qed.

Lemma insertCall_agrees_with_reload_witness :
  insertCall (uniqueCalls (Some [mkCall 1 T1])) (mkCall 2 T2)
  = uniqueCalls (Some [mkCall 2 T2; mkCall 1 T1]).
Proof.
  apply (proj1 (insertCall_agrees_with_reload [mkCall 1 T1] (mkCall 2 T2))).
  vm_compute. intros H. apply list_elem_of_singleton in H. discriminate.
Defined.

End HistoryMore.

(** ** Splitting into lines and joining back *)

Section Lines.
Import PatientDetailsView.

Lemma append_empty_r (s : string) : s +:+ EmptyString = s.
Proof. induction s as [|c s IH]; [reflexivity|]. rewrite append_cons, IH. reflexivity. Qed.

Lemma append_assoc (s t u : string) : (s +:+ t) +:+ u = s +:+ (t +:+ u).
Proof.
  induction s as [|c s IH]; [reflexivity|]. rewrite !append_cons, IH.
  reflexivity.
Qed.

Lemma split_from_cur (sep : ascii) (cur s : string) :
  split_from sep cur s
  = match split_from sep EmptyString s with
    | h :: t => (cur +:+ h) :: t
    | [] => [cur]
    end.
Proof.
  revert cur; induction s as [|c s IH]; intros cur; cbn [split_from].
  - rewrite append_empty_r. reflexivity.
  - destruct (Ascii.eqb c sep).
    + rewrite append_empty_r. reflexivity.
    + rewrite (IH (cur +:+ String c EmptyString)).
      rewrite (IH (EmptyString +:+ String c EmptyString)).
      destruct (split_from sep EmptyString s) as [|h t]; [reflexivity|].
      rewrite append_assoc. reflexivity.
Qed.

Lemma split_empty (sep : ascii) : split EmptyString sep = [EmptyString].
Proof. reflexivity. Qed.

Lemma split_cons (c : ascii) (s : string) (sep : ascii) :
  split (String c s) sep
  = if Ascii.eqb c sep then EmptyString :: split s sep
    else match split s sep with
         | h :: t => String c h :: t
         | [] => [String c EmptyString]
         end.
Proof.
  unfold split. cbn [split_from]. destruct (Ascii.eqb c sep); [reflexivity|].
  rewrite split_from_cur. destruct (split_from sep EmptyString s); reflexivity.
Qed.

Lemma split_nonempty (s : string) (sep : ascii) : split s sep ≠ [].
Proof.
  destruct s as [|c s]; [discriminate|]. rewrite split_cons.
  destruct (Ascii.eqb c sep); [discriminate|].
  destruct (split s sep); discriminate.
Qed.

(** No piece of a split holds the separator. *)
Lemma split_lineFree (s : string) :
  Forall (λ l, lineFree l = true) (split s LF).
Proof.
  induction s as [|c s IH]; [repeat constructor|]. rewrite split_cons.
  destruct (Ascii.eqb c LF) eqn:Hc; [constructor; [reflexivity | exact IH]|].
  destruct (split s LF) as [|h t]; [repeat constructor; cbn; rewrite Hc; reflexivity|].
  apply Forall_cons in IH as [Hh Ht]. constructor; [|exact Ht].
  cbn [lineFree]. rewrite Hc, Hh. reflexivity.
Qed.

Lemma split_app_line (l s : string) :
  lineFree l = true →
  split (l +:+ NL +:+ s) LF = l :: split s LF.
Proof.
  induction l as [|c l IH]; intros Hl.
  - rewrite append_empty. unfold NL. rewrite append_cons, append_empty.
    rewrite split_cons. reflexivity.
  - cbn [lineFree] in Hl. apply andb_true_iff in Hl as [Hc Hl].
    apply negb_true_iff in Hc. rewrite append_cons, split_cons, Hc, (IH Hl).
    reflexivity.
Qed.

Lemma split_line (l : string) : lineFree l = true → split l LF = [l].
Proof.
  induction l as [|c l IH]; intros Hl; [reflexivity|].
  cbn [lineFree] in Hl. apply andb_true_iff in Hl as [Hc Hl].
  apply negb_true_iff in Hc. rewrite split_cons, Hc, (IH Hl). reflexivity.
Qed.

(** Joining lines and splitting again gives the lines back. *)
Lemma split_join (lines : list string) :
  lines ≠ [] → Forall (λ l, lineFree l = true) lines →
  split (join NL lines) LF = lines.
Proof.
  induction lines as [|x [|y rest] IH]; intros Hne Hfree; [congruence|..].
  - apply split_line. apply Forall_cons in Hfree as [Hx _]. exact Hx.
  - apply Forall_cons in Hfree as [Hx Hfree].
    change (join NL (x :: y :: rest)) with (x +:+ NL +:+ join NL (y :: rest)).
    rewrite (split_app_line _ _ Hx), IH; [reflexivity | discriminate | exact Hfree].
Qed.

End Lines.

(** ** Key-question extraction: shape of the result *)

Section KeyQuestionsMore.
Import PatientDetails KeyQuestionSpec KeyQuestionScan PatientDetailsView.
Import HistorySpec.

Lemma reply_middle (pre rest : list string) (line : string) :
  reply (pre ++ line :: rest) (length pre) = replyOf rest.
Proof.
  unfold reply, replyOf. rewrite lookup_app_r by lia.
  replace (length pre + 1 - length pre)%nat with 1%nat by lia.
  destruct rest; reflexivity.
Qed.

Lemma seen_in (pre : list string) (q : string) :
  forallb (λ l, negb (bool_decide (attributed l = Some q))) pre = true
  ↔ ¬ ∃ l, l ∈ pre ∧ attributed l = Some q.
Proof.
  pose proof (seen_before pre (length pre) q) as H.
  rewrite firstn_all in H. exact H.
Qed.

(** The lines captured by attribution, read off the lines still to visit. *)
Lemma pairs_from (suf pre : list string) (found : gset string) :
  (∀ q, q ∈ found ↔ ∃ l, l ∈ pre ∧ attributed l = Some q) →
  flat_map (emitted (pre ++ suf)) (seq (length pre) (length suf))
  = scanFrom found suf.
Proof.
  revert pre found; induction suf as [|line rest IH]; intros pre found Hfound;
    [reflexivity|].
  cbn [length seq flat_map scanFrom].
  assert (Hrest : ∀ found',
            (∀ q, q ∈ found' ↔ ∃ l, l ∈ pre ++ [line] ∧ attributed l = Some q) →
            flat_map (emitted (pre ++ line :: rest))
                     (seq (S (length pre)) (length rest))
            = scanFrom found' rest).
  { intros found' Hfound'. rewrite cons_middle, app_assoc.
    replace (S (length pre)) with (length (pre ++ [line]))
      by (rewrite length_app; cbn; lia).
    apply IH, Hfound'. }
  assert (Hmore : ∀ q, (∃ l, l ∈ pre ++ [line] ∧ attributed l = Some q)
            ↔ q ∈ found ∨ attributed line = Some q).
  { intros q. rewrite Hfound. split.
    - intros (l & Hl & Hq). apply elem_of_app in Hl as [Hl|Hl]; [eauto|].
      apply list_elem_of_singleton in Hl as ->. auto.
    - intros [(l & Hl & Hq) | Hq].
      + exists l. split; [apply elem_of_app; auto | exact Hq].
      + exists line. split; [|exact Hq]. apply elem_of_app. right.
        apply list_elem_of_singleton. reflexivity. }
  unfold emitted at 1, capturedByAttribution.
  rewrite list_lookup_middle by reflexivity. cbn [mbind option_bind].
  rewrite take_app_length, reply_middle.
  destruct (attributed line) as [q|] eqn:Hq.
  - destruct (decide (q ∈ found)) as [Hin|Hout].
    + assert (Hseen : forallb
                 (λ l, negb (bool_decide (attributed l = Some q))) pre = false).
      { apply not_true_iff_false. rewrite seen_in. intros Hno.
        apply Hno, Hfound, Hin. }
      rewrite Hseen. cbn [app]. apply Hrest. intros q'. rewrite Hmore.
      split; [auto|]. intros [H|H]; [exact H|]. congruence.
    + assert (Hseen : forallb
                 (λ l, negb (bool_decide (attributed l = Some q))) pre = true).
      { apply seen_in. intros Hyes. apply Hout, Hfound, Hyes. }
      rewrite Hseen. cbn [option_list app]. rewrite <- app_assoc. cbn [app].
      f_equal. f_equal. apply Hrest. intros q'.
      rewrite Hmore, elem_of_union, elem_of_singleton.
      split; intros [H|H]; auto; [right | left]; congruence.
  - cbn [app]. apply Hrest. intros q'. rewrite Hmore.
    split; [auto|]. intros [H|H]; [exact H | discriminate].
Qed.

Lemma filterKeyQuestions_scanFrom (transcript : string) :
  filterKeyQuestions transcript
  = join NL (scanFrom ∅ (split transcript LF)).
Proof.
  rewrite filterKeyQuestions_extract. unfold extract, pairs. f_equal.
  apply (pairs_from (split transcript LF) [] ∅). intros q. split.
  - intros H. apply not_elem_of_empty in H as [].
  - intros (l & Hl & _). apply not_elem_of_nil in Hl as [].
Qed.

Lemma attributed_isAiLine (line q : string) :
  attributed line = Some q → startsWith line "AI:" = true.
Proof.
  intros H. apply attributed_asks in H as [_ H]. unfold asks in H.
  apply andb_true_iff in H as [H _]. exact H.
Qed.

Lemma user_not_ai (line : string) :
  startsWith line "User:" = true → startsWith line "AI:" = false.
Proof.
  unfold startsWith. destruct line as [|c line]; [discriminate|].
  cbn [String.prefix]. destruct (ascii_dec "U" c) as [<-|]; [|discriminate].
  intros _. reflexivity.
Qed.

Lemma user_not_attributed (line : string) :
  startsWith line "User:" = true → attributed line = None.
Proof. intros H. apply untagged_attributed, user_not_ai, H. Qed.

Lemma replyOf_cases (rest : list string) :
  (replyOf rest = [])
  ∨ ∃ u rest', rest = u :: rest' ∧ replyOf rest = [u]
               ∧ startsWith u "User:" = true.
Proof.
  destruct rest as [|u rest']; [left; reflexivity|]. cbn [replyOf].
  destruct (startsWith u "User:") eqn:Hu; [|left; reflexivity].
  right. exists u, rest'. auto.
Qed.

Lemma scanFrom_user (found : gset string) (u : string) (rest : list string) :
  startsWith u "User:" = true → scanFrom found (u :: rest) = scanFrom found rest.
Proof. intros Hu. cbn [scanFrom]. rewrite (user_not_attributed u Hu). reflexivity. Qed.

Lemma scanFrom_sublist_upto (n : nat) (lines : list string)
    (found : gset string) :
  (length lines ≤ n)%nat → scanFrom found lines `sublist_of` lines.
Proof.
  revert lines found; induction n as [|n IH]; intros lines found Hn.
  - destruct lines; [constructor | cbn in Hn; lia].
  - destruct lines as [|line rest]; [constructor|]. cbn [length] in Hn.
    cbn [scanFrom]. destruct (attributed line) as [q|];
      [destruct (decide (q ∈ found))|];
      try (apply sublist_cons, IH; lia).
    apply sublist_skip.
    destruct (replyOf_cases rest) as [-> | (u & rest' & -> & -> & Hu)];
      [apply IH; lia|].
    cbn [app]. rewrite (scanFrom_user _ u rest' Hu). apply sublist_skip.
    apply IH. cbn [length] in Hn. lia.
Qed.

Lemma scanFrom_sublist (lines : list string) (found : gset string) :
  scanFrom found lines `sublist_of` lines.
Proof. apply (scanFrom_sublist_upto (length lines)). lia. Qed.

Lemma scanFrom_tagged (lines : list string) (found : gset string) :
  Forall tagged (scanFrom found lines).
Proof.
  revert found; induction lines as [|line rest IH]; intros found;
    [constructor|].
  cbn [scanFrom]. destruct (attributed line) as [q|] eqn:Hq;
    [destruct (decide (q ∈ found))|]; try apply IH.
  constructor; [left; apply (attributed_isAiLine _ _ Hq)|].
  apply Forall_app. split; [|apply IH].
  destruct (replyOf_cases rest) as [-> | (u & rest' & _ & -> & Hu)];
    [constructor|].
  constructor; [right; exact Hu | constructor].
Qed.

Lemma filter_isAiLine_replyOf (rest : list string) :
  List.filter isAiLine (replyOf rest) = [].
Proof.
  destruct (replyOf_cases rest) as [-> | (u & rest' & _ & -> & Hu)];
    [reflexivity|].
  cbn [List.filter]. unfold isAiLine. rewrite (user_not_ai u Hu). reflexivity.
Qed.

Lemma length_replyOf (rest : list string) : (length (replyOf rest) ≤ 1)%nat.
Proof.
  destruct (replyOf_cases rest) as [-> | (u & rest' & _ & -> & _)]; cbn; lia.
Qed.

Lemma filter_pending_le (found : gset string) (q : string)
    (l : list string) :
  (length (List.filter (λ x, bool_decide (x ∉ {[q]} ∪ found)) l)
   ≤ length (List.filter (λ x, bool_decide (x ∉ found)) l))%nat.
Proof.
  induction l as [|y l IH]; [reflexivity|]. cbn [List.filter].
  destruct (bool_decide (y ∉ {[q]} ∪ found)) eqn:H1.
  - apply bool_decide_eq_true in H1.
    rewrite bool_decide_eq_true_2; [cbn; lia|].
    intros Hy. apply H1, elem_of_union. right. exact Hy.
  - destruct (bool_decide (y ∉ found)); cbn; lia.
Qed.

Lemma filter_pending_lt (found : gset string) (q : string)
    (l : list string) :
  q ∈ l → q ∉ found →
  (length (List.filter (λ x, bool_decide (x ∉ {[q]} ∪ found)) l)
   < length (List.filter (λ x, bool_decide (x ∉ found)) l))%nat.
Proof.
  intros Hq Hout. induction l as [|y l IH].
  - apply not_elem_of_nil in Hq as [].
  - cbn [List.filter]. apply elem_of_cons in Hq as [<-|Hq].
    + rewrite bool_decide_eq_false_2.
      * rewrite bool_decide_eq_true_2 by exact Hout. cbn.
        pose proof (filter_pending_le found q l). lia.
      * intros H. apply H, elem_of_union. left.
        apply elem_of_singleton. reflexivity.
    + specialize (IH Hq).
      destruct (bool_decide (y ∉ {[q]} ∪ found)) eqn:H1.
      * apply bool_decide_eq_true in H1.
        rewrite bool_decide_eq_true_2; [cbn; lia|].
        intros Hy. apply H1, elem_of_union. right. exact Hy.
      * destruct (bool_decide (y ∉ found)); cbn; lia.
Qed.

Lemma pending_shrinks (found : gset string) (q : string) :
  q ∈ keyQuestions → q ∉ found →
  (length (pending ({[q]} ∪ found)) < length (pending found))%nat.
Proof. apply filter_pending_lt. Qed.

(** Every AI line of the result uses up one canonical question. *)
Lemma scanFrom_bound (lines : list string) (found : gset string) :
  (length (List.filter isAiLine (scanFrom found lines))
   ≤ length (pending found))%nat
  ∧ (length (scanFrom found lines)
     ≤ 2 * length (List.filter isAiLine (scanFrom found lines)))%nat.
Proof.
  revert found; induction lines as [|line rest IH]; intros found;
    [cbn; lia|].
  cbn [scanFrom]. destruct (attributed line) as [q|] eqn:Hq;
    [destruct (decide (q ∈ found)) as [Hin|Hout]|]; try apply IH.
  pose proof (attributed_asks _ _ Hq) as [Hkey _].
  pose proof (pending_shrinks found q Hkey Hout) as Hless.
  destruct (IH ({[q]} ∪ found)) as [IH1 IH2].
  pose proof (length_replyOf rest) as Hreply.
  assert (Hai : isAiLine line = true) by apply (attributed_isAiLine _ _ Hq).
  cbn [List.filter]. rewrite !Hai, !List.filter_app, filter_isAiLine_replyOf.
  cbn [app length]. rewrite length_app. lia.
Qed.

Lemma scanFrom_head (lines : list string) (found : gset string) :
  replyOf (scanFrom found lines) = [].
Proof.
  revert found; induction lines as [|line rest IH]; intros found;
    [reflexivity|].
  cbn [scanFrom]. destruct (attributed line) as [q|] eqn:Hq;
    [destruct (decide (q ∈ found))|]; try apply IH.
  cbn [replyOf]. destruct (startsWith line "User:") eqn:Hu; [|reflexivity].
  apply user_not_ai in Hu. rewrite (attributed_isAiLine _ _ Hq) in Hu.
  discriminate.
Qed.

(** Scanning what a scan produced changes nothing. *)
Lemma scanFrom_idempotent (lines : list string) (found : gset string) :
  scanFrom found (scanFrom found lines) = scanFrom found lines.
Proof.
  revert found; induction lines as [|line rest IH]; intros found;
    [reflexivity|].
  cbn [scanFrom]. destruct (attributed line) as [q|] eqn:Hq;
    [destruct (decide (q ∈ found)) as [Hin|Hout]|]; try apply IH.
  cbn [scanFrom]. rewrite Hq, decide_False by exact Hout. f_equal.
  destruct (replyOf_cases rest) as [-> | (u & rest' & _ & -> & Hu)].
  - cbn [app]. rewrite scanFrom_head, IH. reflexivity.
  - cbn [app replyOf]. rewrite Hu. cbn [app]. f_equal.
    rewrite (scanFrom_user _ u _ Hu). apply IH.
Qed.

Lemma sublist_Forall {A : Type} (P : A → Prop) (l k : list A) :
  l `sublist_of` k → Forall P k → Forall P l.
Proof.
  intros Hsub Hk. rewrite Forall_forall in Hk |- *. intros x Hx.
  apply Hk, (sublist_subseteq _ _ Hsub), Hx.
Qed.

(** What the extraction returns, as lines: [out] is the array that the
    loop joins. *)
Lemma filterKeyQuestions_out (transcript : string) :
  ∃ out,
    filterKeyQuestions transcript = join NL out
    ∧ out = scanFrom ∅ (split transcript LF)
    ∧ (out = [] → filterKeyQuestions transcript = EmptyString)
    ∧ (out ≠ [] → split (filterKeyQuestions transcript) LF = out).
Proof.
  exists (scanFrom ∅ (split transcript LF)).
  rewrite filterKeyQuestions_scanFrom. split; [reflexivity|].
  split; [reflexivity|]. split; [intros ->; reflexivity|].
  intros Hne. apply split_join; [exact Hne|].
  eapply sublist_Forall; [apply scanFrom_sublist | apply split_lineFree].
Qed.

(** X12: the lines of the result are lines of the transcript, in the order
    of the transcript; each carries the tag of the AI or of the user; at
    most four of them are AI lines and there are at most eight in all. *)
Theorem filterKeyQuestions_lines (transcript : string) :
  ∃ out,
    filterKeyQuestions transcript = join NL out
    ∧ (out = [] → filterKeyQuestions transcript = EmptyString)
    ∧ (out ≠ [] → split (filterKeyQuestions transcript) LF = out)
    ∧ out `sublist_of` split transcript LF
    ∧ Forall tagged out
    ∧ (length (List.filter isAiLine out) ≤ 4)%nat
    ∧ (length out ≤ 8)%nat.
Proof.
  destruct (filterKeyQuestions_out transcript) as (out & Hjoin & -> & He & Hne).
  exists (scanFrom ∅ (split transcript LF)).
  repeat (split; [assumption|]).
  split; [apply scanFrom_sublist|]. split; [apply scanFrom_tagged|].
  destruct (scanFrom_bound (split transcript LF) ∅) as [Hai Hall].
  assert (Hfour : length (pending ∅) = 4%nat) by reflexivity.
  lia.
Qed.

Lemma filterKeyQuestions_lines_witness :
  split (filterKeyQuestions feelingTwice) LF
  = ["AI: How are you feeling?"; "User: Okay I guess"].
Proof.
  destruct (filterKeyQuestions_lines feelingTwice)
    as (out & Hjoin & _ & Hsplit & _).
  assert (Hout : out = ["AI: How are you feeling?"; "User: Okay I guess"]).
  { assert (Hlines : split (join NL out) LF
                     = ["AI: How are you feeling?"; "User: Okay I guess"])
      by (rewrite <- Hjoin; reflexivity).
    destruct out as [|x out]; [discriminate Hlines|].
    rewrite <- Hjoin, Hsplit in Hlines; [exact Hlines | discriminate]. }
  rewrite Hsplit; [exact Hout|]. rewrite Hout. discriminate.
Defined.

(** X13: extracting from an extraction changes nothing. *)
Theorem filterKeyQuestions_idempotent (transcript : string) :
  filterKeyQuestions (filterKeyQuestions transcript)
  = filterKeyQuestions transcript.
Proof.
  destruct (filterKeyQuestions_out transcript) as (out & Hjoin & Hout & He & Hne).
  destruct out as [|x out].
  - rewrite (He eq_refl). reflexivity.
  - rewrite (filterKeyQuestions_scanFrom (filterKeyQuestions transcript)).
    rewrite Hne by discriminate. rewrite Hout, scanFrom_idempotent, <- Hout.
    symmetry. exact Hjoin.
Qed.

Lemma renderLine_shows (line : string) :
  tagged line → shows line (renderLine line).
Proof.
  unfold renderLine, shows. intros [Hai|Huser].
  - left. split; [exact Hai|]. rewrite Hai.
    rewrite (replace_startsWith _ _ _ Hai), append_empty. reflexivity.
  - right. split; [exact Huser|].
    rewrite (user_not_ai _ Huser), Huser.
    rewrite (replace_startsWith _ _ _ Huser), append_empty. reflexivity.
Qed.

(** X14: the card of a call without transcript, or with an empty one, shows
    no transcript; otherwise, when the extraction is not empty, the card
    holds one entry per extracted line, in order, each the bubble of the
    line's speaker with the line's text (tag removed, trimmed), so no
    extracted line is dropped, and there are at most eight; an empty
    extraction is rendered as a single empty entry. *)
Theorem renderTranscript_bubbles (call : Call.t) :
  (truthy_string (Call.transcript call) = None →
   renderTranscript (Some call) = None)
  ∧ (∀ transcript,
       truthy_string (Call.transcript call) = Some transcript →
       ∃ rendered,
         renderTranscript (Some call) = Some rendered
         ∧ (filterKeyQuestions transcript = EmptyString →
            rendered = [None])
         ∧ (filterKeyQuestions transcript ≠ EmptyString →
            ∃ out,
              filterKeyQuestions transcript = join NL out
              ∧ split (filterKeyQuestions transcript) LF = out
              ∧ out `sublist_of` split transcript LF
              ∧ Forall2 shows out rendered
              ∧ (length rendered ≤ 8)%nat)).
Proof.
  unfold renderTranscript. cbn [mbind option_bind]. split.
  - intros ->. reflexivity.
  - intros transcript ->. eexists. split; [reflexivity|]. split.
    + intros ->. reflexivity.
    + intros Hne.
      destruct (filterKeyQuestions_out transcript)
        as (out & Hjoin & Hout & He & Hs).
      assert (Hout' : out ≠ []) by (intros H; apply Hne, He, H).
      exists out. rewrite (Hs Hout').
      split; [exact Hjoin|]. split; [reflexivity|].
      rewrite Hout. split; [apply scanFrom_sublist|]. split.
      * apply Forall2_fmap_r, Forall_Forall2_diag.
        eapply Forall_impl; [apply scanFrom_tagged|].
        intros line Hline. apply renderLine_shows, Hline.
      * rewrite length_map.
        destruct (scanFrom_bound (split transcript LF) ∅) as [Hai Hall].
        assert (Hfour : length (pending ∅) = 4%nat) by reflexivity.
        lia.
Qed.

Lemma renderTranscript_bubbles_witness :
  renderTranscript (Some (mkCall 1 T1)) = None
  ∧ ∃ rendered,
      renderTranscript (Some feelingCall) = Some rendered
      ∧ (filterKeyQuestions feelingTwice = EmptyString → rendered = [None])
      ∧ (filterKeyQuestions feelingTwice ≠ EmptyString →
         ∃ out,
           filterKeyQuestions feelingTwice = join NL out
           ∧ split (filterKeyQuestions feelingTwice) LF = out
           ∧ out `sublist_of` split feelingTwice LF
           ∧ Forall2 shows out rendered
           ∧ (length rendered ≤ 8)%nat).
Proof.
  split.
  - apply (proj1 (renderTranscript_bubbles (mkCall 1 T1))). reflexivity.
  - apply (proj2 (renderTranscript_bubbles feelingCall) feelingTwice).
    reflexivity.
Defined.

End KeyQuestionsMore.

(** ** Durations *)

Section Durations.
Import PatientDetailsView.

Lemma length_append (s t : string) :
  String.length (s +:+ t) = (String.length s + String.length t)%nat.
Proof.
  induction s as [|c s IH]; [reflexivity|]. rewrite append_cons.
  cbn [String.length]. rewrite IH. reflexivity.
Qed.

(** Two texts that end in fields of the same length agree field by field. *)
Lemma append_inj_length (a b x y : string) :
  String.length x = String.length y → a +:+ x = b +:+ y → a = b ∧ x = y.
Proof.
  revert b; induction a as [|c a IH]; intros [|d b] Hlen Heq.
  - split; [reflexivity | exact Heq].
  - rewrite append_empty in Heq. subst x.
    rewrite length_append in Hlen. cbn [String.length] in Hlen. lia.
  - rewrite append_empty in Heq. subst y.
    rewrite length_append in Hlen. cbn [String.length] in Hlen. lia.
  - rewrite !append_cons in Heq. injection Heq as -> Heq.
    destruct (IH b Hlen Heq) as [-> ->]. split; reflexivity.
Qed.

Lemma to_int_not_nil (z : Z) :
  Z.to_int z ≠ Decimal.Pos Decimal.Nil ∧ Z.to_int z ≠ Decimal.Neg Decimal.Nil.
Proof.
  destruct z as [|p|p]; cbn [Z.to_int]; split; try discriminate;
    intros H; injection H as H;
    apply (DecimalPos.Unsigned.to_uint_nonnil p); exact H.
Qed.

(** The digits read back as the number. *)
Lemma readDecimal_decimal (z : Z) : readDecimal (decimal z) = Some z.
Proof.
  unfold readDecimal, decimal.
  rewrite NilZero.isi by apply to_int_not_nil.
  cbn [fmap option_fmap option_map]. rewrite DecimalZ.of_to. reflexivity.
Qed.

Lemma decimal_injective (a b : Z) : decimal a = decimal b → a = b.
Proof.
  intros Heq. assert (Some a = Some b) as H
    by (rewrite <- !readDecimal_decimal, Heq; reflexivity).
  injection H as H. exact H.
Qed.

(** The seconds field has two characters and reads as the remainder. *)
Lemma secondsField_spec (remainder : nat) :
  (remainder < 60)%nat →
  String.length (secondsField remainder) = 2%nat
  ∧ readDecimal (secondsField remainder) = Some (Z.of_nat remainder).
Proof.
  intros Hlt.
  assert (Hall : forallb
            (λ r, (String.length (secondsField r) =? 2)%nat
                  && bool_decide (readDecimal (secondsField r)
                                  = Some (Z.of_nat r)))
            (seq 0 60) = true) by (vm_compute; reflexivity).
  rewrite forallb_forall in Hall.
  specialize (Hall remainder ltac:(apply in_seq; lia)).
  apply andb_true_iff in Hall as [Hlen Hread].
  apply Nat.eqb_eq in Hlen. apply bool_decide_eq_true in Hread. auto.
Qed.

Lemma isSafeInteger_true (n : Z) :
  - MAX_SAFE_INTEGER ≤ n ≤ MAX_SAFE_INTEGER → isSafeInteger n = true.
Proof.
  intros [Hlo Hhi]. unfold isSafeInteger.
  apply andb_true_iff. split; apply Z.leb_le; assumption.
Qed.

Lemma formatDuration_nonneg (seconds : Z) :
  0 ≤ seconds ≤ MAX_SAFE_INTEGER →
  formatDuration seconds
  = Some (decimal (seconds / 60) +:+ ":"
          +:+ secondsField (Z.to_nat (seconds mod 60))).
Proof.
  intros Hs. unfold formatDuration, secondsField.
  rewrite isSafeInteger_true by (unfold MAX_SAFE_INTEGER in *; lia).
  rewrite Z.rem_mod_nonneg by lia.
  rewrite Z2Nat.id by (apply Z.mod_pos_bound; lia). reflexivity.
Qed.



(** X16: two different durations of zero or more seconds, up to the
    largest safe integer, are never written the same way. *)
Theorem formatDuration_injective (a b : Z) :
  0 ≤ a ≤ MAX_SAFE_INTEGER → 0 ≤ b ≤ MAX_SAFE_INTEGER →
  formatDuration a = formatDuration b → a = b.
Proof.
  intros Ha Hb Heq.
  rewrite !formatDuration_nonneg in Heq by assumption.
  injection Heq as Heq.
  pose proof (Z.mod_pos_bound a 60 ltac:(lia)) as Hma.
  pose proof (Z.mod_pos_bound b 60 ltac:(lia)) as Hmb.
  destruct (secondsField_spec (Z.to_nat (a mod 60)) ltac:(lia)) as [La Ra].
  destruct (secondsField_spec (Z.to_nat (b mod 60)) ltac:(lia)) as [Lb Rb].
  rewrite <- !append_assoc in Heq.
  apply append_inj_length in Heq as [Hmin Hsec]; [|congruence].
  apply append_inj_length in Hmin as [Hmin _]; [|reflexivity].
  apply decimal_injective in Hmin.
  rewrite Hsec, Rb in Ra. injection Ra as Ra.
  rewrite (Z.div_mod a 60), (Z.div_mod b 60) by lia. lia.
Qed.

Lemma formatDuration_injective_witness : (65 : Z) = 65.
Proof.
  apply (formatDuration_injective 65 65);
    [unfold MAX_SAFE_INTEGER; lia | unfold MAX_SAFE_INTEGER; lia
    | reflexivity].
Defined.

End Durations.

(** ** The sidebar *)

Section Sidebar.
Import AppSidebar.

Lemma getUrgencyColor_cases (score : Z) :
  (8 ≤ score ∧ getUrgencyColor score = "bg-red-500")
  ∨ (5 ≤ score < 8 ∧ getUrgencyColor score = "bg-orange-500")
  ∨ (3 ≤ score < 5 ∧ getUrgencyColor score = "bg-yellow-500")
  ∨ (score < 3 ∧ getUrgencyColor score = "bg-green-500").
Proof.
  unfold getUrgencyColor.
  destruct (decide (8 ≤ score)); [left; auto|].
  destruct (decide (5 ≤ score)); [right; left; split; [lia | reflexivity]|].
  destruct (decide (3 ≤ score)); [right; right; left; split; [lia | reflexivity]|].
  right; right; right. split; [lia | reflexivity].
Qed.

(** X17: the badge colour follows the score: red from 8, orange from 5 to
    7, yellow for 3 and 4, green below 3; a higher score never gets a less
    alarming colour. *)
Theorem getUrgencyColor_thresholds (score : Z) :
  (getUrgencyColor score = "bg-red-500" ↔ 8 ≤ score)
  ∧ (getUrgencyColor score = "bg-orange-500" ↔ 5 ≤ score < 8)
  ∧ (getUrgencyColor score = "bg-yellow-500" ↔ 3 ≤ score < 5)
  ∧ (getUrgencyColor score = "bg-green-500" ↔ score < 3)
  ∧ (∀ higher, score ≤ higher →
       alarm (getUrgencyColor score) ≤ alarm (getUrgencyColor higher)).
Proof.
  assert (Hmono : ∀ higher, score ≤ higher →
            alarm (getUrgencyColor score) ≤ alarm (getUrgencyColor higher)).
  { intros higher Hle.
    destruct (getUrgencyColor_cases score)
      as [[Hs ->] | [[Hs ->] | [[Hs ->] | [Hs ->]]]];
      destruct (getUrgencyColor_cases higher)
        as [[Hh ->] | [[Hh ->] | [[Hh ->] | [Hh ->]]]];
      try lia; vm_compute; discriminate. }
  destruct (getUrgencyColor_cases score)
    as [[Hs Hc] | [[Hs Hc] | [[Hs Hc] | [Hs Hc]]]];
    (split; [|split; [|split; [|split; [|exact Hmono]]]]);
    rewrite Hc; split; intros H;
    first [lia | discriminate H | reflexivity].
Qed.

Lemma getUrgencyColor_thresholds_witness :
  alarm (getUrgencyColor 4) ≤ alarm (getUrgencyColor 7).
Proof.
  apply (proj2 (proj2 (proj2 (proj2 (getUrgencyColor_thresholds 4))))). lia.
Defined.

Lemma urgency_compare_total (a b : Mail) :
  urgency b - urgency a ≤ 0 ∨ urgency a - urgency b ≤ 0.
Proof. lia. Qed.

Lemma urgency_compare_trans (a b c : Mail) :
  urgency b - urgency a ≤ 0 → urgency c - urgency b ≤ 0 →
  urgency c - urgency a ≤ 0.
Proof. lia. Qed.

(** X18: sorting the sidebar by urgency rearranges the mails so that the
    urgencies never increase down the list; mails of equal urgency keep
    their order; and sorting again changes nothing. *)
Theorem sortByUrgency_sorted (mails : list Mail) :
  sortByUrgency mails ≡ₚ mails
  ∧ StronglySorted (λ a b, urgency b ≤ urgency a) (sortByUrgency mails)
  ∧ (∀ k, List.filter (λ m, bool_decide (urgency m = k))
                      (sortByUrgency mails)
          = List.filter (λ m, bool_decide (urgency m = k)) mails)
  ∧ sortByUrgency (sortByUrgency mails) = sortByUrgency mails
  ∧ sortByUrgency tiedMails
    = [ {| phoneNumber := "3"; name := "Ann Lee"; urgency := 9;
           lastCall := "2024-03-18" |};
        {| phoneNumber := "1"; name := "John Doe"; urgency := 4;
           lastCall := "2024-03-20" |};
        {| phoneNumber := "2"; name := "Jane Smith"; urgency := 4;
           lastCall := "2024-03-19" |} ].
Proof.
  unfold sortByUrgency.
  assert (Hsorted : StronglySorted
            (sort_before (λ a b, urgency b - urgency a))
            (array_sort (λ a b, urgency b - urgency a) mails)).
  { apply array_sort_StronglySorted.
    - intros a b. apply urgency_compare_total.
    - intros a b c. apply urgency_compare_trans. }
  split; [apply array_sort_Permutation|]. split; [|split; [|split]].
  - eapply StronglySorted_weaken; [|exact Hsorted].
    intros a b. unfold sort_before. lia.
  - intros k. apply filter_array_sort. intros a b Ha Hb.
    apply bool_decide_eq_true in Ha, Hb. lia.
  - apply array_sort_Sorted, StronglySorted_Sorted, Hsorted.
  - reflexivity.
Qed.

End Sidebar.

(** ** The caller list: how the operations compose *)

Section CallerListComposition.
Import PatientList RankingSpec PatientListView.

(** X19: clicking a sort button changes neither the caller list nor the
    selection nor the filter, so the list shown is in the old order until
    the reload that follows; once that reload has fetched the callers, the
    list is in the order of the clicked key: descending when the key was
    active with ascending order, ascending when it was active with
    descending order, and descending when another key was active. *)
Theorem handleSort_then_reload (be : Backend) (st : State)
    (field : SortField) :
  callers (handleSort field st) = callers st
  ∧ selectedId (handleSort field st) = selectedId st
  ∧ filterSource (handleSort field st) = filterSource st
  ∧ (Response.error (fetchCallers be) = None →
     (sortField st = field → sortOrder st = asc →
      StronglySorted (inOrder field desc)
        (callers (fetchCallersAndScores be (handleSort field st)).1))
     ∧ (sortField st = field → sortOrder st = desc →
        StronglySorted (inOrder field asc)
          (callers (fetchCallersAndScores be (handleSort field st)).1))
     ∧ (sortField st ≠ field →
        StronglySorted (inOrder field desc)
          (callers (fetchCallersAndScores be (handleSort field st)).1))).
Proof.
  assert (Hframe : callers (handleSort field st) = callers st
            ∧ selectedId (handleSort field st) = selectedId st
            ∧ filterSource (handleSort field st) = filterSource st).
  { unfold handleSort. destruct (decide (sortField st = field)); auto. }
  destruct Hframe as (H1 & H2 & H3). repeat (split; [assumption|]).
  intros Herr. rewrite (fetchCallersAndScores_callers _ _ Herr).
  unfold handleSort. split; [|split].
  - intros Heq Hasc. rewrite decide_True by exact Heq.
    cbn [sortField sortOrder]. rewrite Heq, Hasc.
    apply sortCallers_StronglySorted.
  - intros Heq Hdesc. rewrite decide_True by exact Heq.
    cbn [sortField sortOrder]. rewrite Heq, Hdesc.
    apply sortCallers_StronglySorted.
  - intros Hne. rewrite decide_False by exact Hne.
    cbn [sortField sortOrder]. apply sortCallers_StronglySorted.
Qed.

Lemma handleSort_then_reload_witness :
  StronglySorted (inOrder urgency asc)
    (callers (fetchCallersAndScores flakyBackend
                (handleSort urgency (exampleState All))).1)
  ∧ StronglySorted (inOrder lastCall desc)
      (callers (fetchCallersAndScores flakyBackend
                  (handleSort lastCall (exampleState All))).1).
Proof.
  split.
  - apply (proj1 (proj2 (proj2 (proj2 (proj2
             (handleSort_then_reload flakyBackend (exampleState All)
                                     urgency))) eq_refl))); reflexivity.
  - apply (proj2 (proj2 (proj2 (proj2 (proj2
             (handleSort_then_reload flakyBackend (exampleState All)
                                     lastCall))) eq_refl))).
    discriminate.
Defined.

(** X20: a caller whose lookup of the most recent call failed is in the
    reloaded list but under neither channel tab: it is shown under "All"
    only. *)
Theorem failed_lookup_only_under_All (be : Backend) (st : State)
    (callersData : list Caller.t) (c : Caller.t) (f : FilterSource) :
  Response.error (fetchCallers be) = None →
  Response.data (fetchCallers be) = Some callersData →
  c ∈ callersData →
  Response.data (fetchLastCall be (Caller.phone_number c)) = None →
  (withScore be c
     ∈ visibleCallers (setFilterSource f (fetchCallersAndScores be st).1)
   ↔ f = All).
Proof.
  intros Herr Hdata Hc Hfail. unfold visibleCallers, setFilterSource.
  cbn [callers filterSource].
  rewrite list_elem_of_In, filter_In, <- list_elem_of_In.
  rewrite (fetchCallersAndScores_callers _ _ Herr), Hdata. cbn [or_else].
  rewrite sortCallers_Permutation.
  assert (Hin : withScore be c ∈ withScore be <$> callersData)
    by apply list_elem_of_fmap_2, Hc.
  assert (Hnone : last_source (withScore be c) = None)
    by (unfold withScore; rewrite Hfail; reflexivity).
  unfold sourceFilter. rewrite Hnone.
  destruct f; split; try tauto; try discriminate;
    intros [_ H]; apply bool_decide_eq_true in H; discriminate.
Qed.

Lemma failed_lookup_only_under_All_witness :
  withScore flakyBackend (caller caller1)
    ∈ visibleCallers
        (setFilterSource Phone_Call
           (fetchCallersAndScores flakyBackend (exampleState All)).1)
  ↔ Phone_Call = All.
Proof.
  apply (failed_lookup_only_under_All flakyBackend (exampleState All)
           [caller caller1; caller caller2] (caller caller1) Phone_Call);
    [reflexivity | reflexivity | apply list_elem_of_here | reflexivity].
Defined.

(** X21: the source badge of the call details and the tabs of the caller
    list agree on chat calls, and every caller under the "Phone Call" tab
    has calls badged "Phone Call"; but a call whose source is neither
    "Phone" nor "Chatbot", or is missing, is badged "Phone Call" while its
    caller is under neither tab. *)
Theorem sourceBadge_and_tabs (call : Call.t) (c : ScoredCaller) :
  last_source c = truthy_string (Call.source call) →
  (PatientDetailsView.sourceBadge call = "Chatbot"
   ↔ sourceFilter Chatbot c = true)
  ∧ (sourceFilter Phone_Call c = true →
     PatientDetailsView.sourceBadge call = "Phone Call")
  ∧ (Call.source call ≠ Some "Phone" → Call.source call ≠ Some "Chatbot" →
     PatientDetailsView.sourceBadge call = "Phone Call"
     ∧ sourceFilter Phone_Call c = false
     ∧ sourceFilter Chatbot c = false).
Proof.
  intros Hsrc. unfold PatientDetailsView.sourceBadge, sourceFilter.
  rewrite Hsrc.
  destruct (Call.source call) as [[|a s]|] eqn:Hcall; cbn [truthy_string].
  - rewrite !bool_decide_eq_false_2 by discriminate.
    repeat split; try discriminate; reflexivity.
  - destruct (decide (String a s = "Chatbot")) as [->|Hne].
    + rewrite !bool_decide_eq_true_2 by reflexivity.
      rewrite bool_decide_eq_false_2 by discriminate.
      repeat split; try discriminate; try reflexivity; congruence.
    + rewrite (bool_decide_eq_false_2 (Some (String a s) = Some "Chatbot"))
        by congruence.
      repeat split; try discriminate; try reflexivity.
      apply bool_decide_eq_false. congruence.
  - rewrite !bool_decide_eq_false_2 by discriminate.
    repeat split; try discriminate; reflexivity.
Qed.

Lemma sourceBadge_and_tabs_witness :
  PatientDetailsView.sourceBadge (HistorySpec.mkCall 1 HistorySpec.T1)
  = "Phone Call".
Proof.
  apply (proj1 (proj2 (sourceBadge_and_tabs
                         (HistorySpec.mkCall 1 HistorySpec.T1) caller1
                         eq_refl))).
  reflexivity.
Defined.

End CallerListComposition.
